(** * aws-fail2ban: the service jailer of [jailer-service.go]

  A shallow embedding of the ban-coordination engine: the per-address
  infraction log kept in Redis, [AddInfraction] with its threshold test,
  the maintenance pass [manageState], the start-up resynchronisation of
  [NewServiceJailer] and its periodic loop, and the page of [WriteState].

  Conventions of the embedding.
  - Go [int], [int64] and [time.Duration] values are unbounded [Z], a
    [time.Time] is its number of nanoseconds since the Unix epoch, and the
    age of an infraction is compared with [FindTime] exactly.  Go itself
    keeps the seconds of a [time.Time] in an [int64] ([time.Unix] wraps
    around above [maxUnix], [Sub] saturates) and compares
    [d.Seconds()], a [float64], with [FindTime].  The two agree on the
    range that [unwrapped], [exactBan] and [exactWindow] describe: the
    statements that depend on the ages or on the end of a ban assume
    that range, or keep the timestamps at or before the clock, or hold
    whatever the loop over the log returns.
  - The Redis server is a finite map from keys to lists with an optional
    time to live.  A command that fails returns an error and is taken not
    to have reached the server (the server is down, the client is
    closed); a reply lost after the server applied the command is not
    modelled, and no statement over every failure concludes from a failed
    command that changes the server that the server is as it was.
  - The time to live of a key runs on the server: [redis.elapse] is the
    passing of time there, and [wait] the time between two calls.
  - The wall clock and the failures of the server are an environment:
    [clock n] is the [n]-th reading of [time.Now()], [fails n] tells
    whether the [n]-th Redis command fails.
  - [j.Ban] and [j.Unban] start a goroutine that updates the ip set; the
    embedding records the call in the trace and nothing more. *)

From Stdlib Require Import ZArith Lia Ascii DecimalString DecimalPos.
From Equations Require Import Equations.
From stdpp Require Import gmap strings list fin_maps sorting.

Local Open Scope Z_scope.

(** ** Package [time] *)

Module time.

Definition Duration := Z.
Definition Time := Z.

Definition Second : Duration := 1000000000.

(** [time.Unix(sec, 0)] *)
Definition Unix (sec : Z) : Time := sec * Second.

(** [t.Unix()]: whole seconds since the epoch, rounded down. *)
Definition ToUnix (t : Time) : Z := t `div` Second.

(** [time.Time{}] is January 1, year 1, 00:00:00 UTC. *)
Definition zero : Time := Unix (-62135596800).

Definition IsZero (t : Time) : bool := bool_decide (t = zero).
Definition Add (t : Time) (d : Duration) : Time := t + d.
Definition Sub (t u : Time) : Duration := t - u.
Definition Before (t u : Time) : bool := bool_decide (t < u).

(** [d.Seconds() < n] for an integer constant [n]: the duration in
    seconds, as a real number, is below [n]. *)
Definition SecondsLt (d : Duration) (n : Z) : bool :=
  bool_decide (d < n * Second).

End time.

(** ** Package [strconv] *)

Module strconv.

Definition digit (c : ascii) : option Z :=
  let n := Z.of_nat (nat_of_ascii c) in
  if (48 <=? n) && (n <=? 57) then Some (n - 48) else None.

Fixpoint digits (s : string) (acc : Z) : option Z :=
  match s with
  | EmptyString => Some acc
  | String c s' =>
      match digit c with
      | Some d => digits s' (10 * acc + d)
      | None => None
      end
  end.

Definition unsigned (s : string) : option Z :=
  match s with
  | EmptyString => None
  | _ => digits s 0
  end.

Definition inInt64 (v : Z) : option Z :=
  if (- 2 ^ 63 <=? v) && (v <? 2 ^ 63) then Some v else None.

(** [strconv.ParseInt(s, 10, 64)]; [None] stands for a non-nil error. *)
Definition ParseInt (s : string) : option Z :=
  match s with
  | String "-" s' => v ← unsigned s'; inInt64 (- v)
  | String "+" s' => v ← unsigned s'; inInt64 v
  | _ => v ← unsigned s; inInt64 v
  end.

(** The decimal form under which go-redis sends an [int64] argument. *)
Definition FormatInt (v : Z) : string :=
  NilZero.string_of_int (Z.to_int v).

End strconv.

(** ** Keys *)

Definition keyPrefix : string := "aws-fail2ban-".

Fixpoint string_drop (n : nat) (s : string) : string :=
match n, s with
| O, _ => s
| S n', String _ s' => string_drop n' s'
| S _, EmptyString => EmptyString
end.

(** The glob ["aws-fail2ban-*"] of the SCAN command. *)
Definition matchesPattern (key : string) : bool := String.prefix keyPrefix key.

(** ** The Redis server *)

Module redis.

Record Entry := mkEntry { items : list string; ttl : option Z }.

Abbreviation Store := (gmap string Entry).

Definition lrange (s : Store) (key : string) : list string :=
  match s !! key with
  | Some e => items e
  | None => []
  end.

Definition llen (s : Store) (key : string) : Z :=
  Z.of_nat (length (lrange s key)).

Definition ttlOf (s : Store) (key : string) : option Z :=
  match s !! key with
  | Some e => ttl e
  | None => None
  end.

(** RPUSH key value: the reply is the length after the push. *)
Definition rpush (key value : string) (s : Store) : Z * Store :=
  let l := lrange s key ++ [value] in
  (Z.of_nat (length l), <[key := mkEntry l (ttlOf s key)]> s).

(** LTRIM key start -1.  A negative [start] counts from the end; a list
    that becomes empty is removed together with its key. *)
Definition ltrim (key : string) (start : Z) (s : Store) : Store :=
  match s !! key with
  | None => s
  | Some e =>
      let n := Z.of_nat (length (items e)) in
      let from := if bool_decide (start < 0) then Z.max 0 (n + start) else start in
      match drop (Z.to_nat from) (items e) with
      | [] => delete key s
      | l => <[key := mkEntry l (ttl e)]> s
      end
  end.

Definition del (key : string) (s : Store) : Store := delete key s.

(** EXPIRE key seconds: a time to live that is not positive removes the
    key at once. *)
Definition expire (key : string) (secs : Z) (s : Store) : Store :=
  match s !! key with
  | None => s
  | Some e =>
      if bool_decide (secs <= 0) then delete key s
      else <[key := mkEntry (items e) (Some secs)]> s
  end.


(** How go-redis turns a [time.Duration] into the argument of EXPIRE. *)
Definition formatSec (d : time.Duration) : Z :=
  if bool_decide (0 < d < time.Second) then 1 else d `quot` time.Second.

Inductive Cmd :=
| RPush (key value : string)
| LTrim (key : string) (start : Z)
| Expire (key : string) (secs : Z)
| Del (key : string)
| LRange (key : string)
| LLen (key : string)
| Scan (cursor count : Z).

End redis.

(** Counters of one maintenance pass (the local variables of
  [manageState] that its closures update). *)
Record Stats := mkStats {
keysEvaluated : Z;
scanIterations : Z;
ipsDeleted : Z;
ipsAffected : Z;
infractionsDeleted : Z;
ipsUnbanned : Z
}.

Definition noStats : Stats := mkStats 0 0 0 0 0 0.

(** What the background goroutine of [NewServiceJailer] receives in one
  [select]: a value on [quitChan], or the expiry of [time.After(period)]
  together with the pages that the SCAN of this pass will return. *)
Inductive Selected :=
| RecvQuit
| TimerFired (pages : list (list string)).

(** [net.IP] with [ip.String()] and [net.ParseIP]; a nil result is [None]. *)
Class Net := {
  IP : Type;
  IP_String : IP → string;
  ParseIP : string → option IP
}.

(** Configuration constants, declared outside [jailer-service.go]. *)
Class Config := {
  MaxRetry : Z;
  FindTime : Z;
  BanTime : Z
}.

(** The environment: [clock n] is the [n]-th reading of the wall clock,
    [fails n] tells whether the [n]-th Redis command fails. *)
Class Environment := {
  clock : nat → time.Time;
  fails : nat → bool
}.

Inductive Error := StoreError (c : redis.Cmd).

Section Jailer.

Context `{Net} `{Config} `{Environment}.

Inductive LogLine :=
| ErrorLog_err (e : Error)
| ErrorLog_parse_time (s : string)
| ErrorLog_parse_ip (key : string)
| InfoLog_unbanned (ip : IP)
| InfoLog_banned (ip : IP) (llen : Z)
| InfoLog_evaluated (keys iterations : Z)
| InfoLog_ips_unbanned (n : Z)
| InfoLog_ips_deleted (n : Z)
| InfoLog_infractions_deleted (n ips : Z)
| DebugLog_infraction (ip : IP) (t : time.Time)
| DebugLog_banned_until (ip : IP) (t : time.Time).

Inductive Event :=
| EvCmd (c : redis.Cmd) (ok : bool)
| EvBan (ip : IP)
| EvUnban (ip : IP)
| EvLog (l : LogLine).

Record World := mkWorld {
  store : gmap string redis.Entry;
  tick : nat;
  ncmd : nat;
  trace : list Event
}.

(** *** The monad of the embedding: state, with Go panics *)

Inductive Outcome (A : Type) :=
| Done (a : A) (w : World)
| Panic (w : World).

Arguments Done {A} a w.
Arguments Panic {A} w.

Definition M (A : Type) := World → Outcome A.

Definition ret {A} (a : A) : M A := fun w => Done a w.

Definition bind {A B} (m : M A) (k : A → M B) : M B :=
  fun w =>
    match m w with
    | Done a w' => k a w'
    | Panic w' => Panic w'
    end.

Definition panic {A} : M A := fun w => Panic w.

Notation "x <~ m ;; k" := (bind m (fun x => k))
  (at level 100, m at next level, right associativity).
Notation "m ;;; k" := (bind m (fun _ => k))
  (at level 100, right associativity).

Definition emit (e : Event) : M unit :=
  fun w => Done tt (mkWorld (store w) (tick w) (ncmd w) (trace w ++ [e])).

Definition log (l : LogLine) : M unit := emit (EvLog l).

(** [if err != nil { ErrorLog(err.Error()) }] *)
Definition logIfErr (err : option Error) : M unit :=
  match err with
  | Some e => log (ErrorLog_err e)
  | None => ret tt
  end.

(** [time.Now()] *)
Definition time_Now : M time.Time :=
  fun w => Done (clock (tick w))
                (mkWorld (store w) (S (tick w)) (ncmd w) (trace w)).

(** One Redis command: [run] is its effect on the server and its reply. *)
Definition issue {A} (c : redis.Cmd)
    (run : gmap string redis.Entry → A * gmap string redis.Entry)
  : M (Error + A) :=
  fun w =>
    if fails (ncmd w) then
      Done (inl (StoreError c))
           (mkWorld (store w) (tick w) (S (ncmd w)) (trace w ++ [EvCmd c false]))
    else
      Done (inr (fst (run (store w))))
           (mkWorld (snd (run (store w))) (tick w) (S (ncmd w))
                    (trace w ++ [EvCmd c true])).

Definition RPush (key value : string) : M (Error + Z) :=
  issue (redis.RPush key value) (redis.rpush key value).

Definition LTrim (key : string) (start : Z) : M (Error + unit) :=
  issue (redis.LTrim key start) (fun s => (tt, redis.ltrim key start s)).

Definition Expire (key : string) (d : time.Duration) : M (Error + unit) :=
  issue (redis.Expire key (redis.formatSec d))
        (fun s => (tt, redis.expire key (redis.formatSec d) s)).

Definition Del (key : string) : M (Error + unit) :=
  issue (redis.Del key) (fun s => (tt, redis.del key s)).

Definition LRange (key : string) : M (Error + list string) :=
  issue (redis.LRange key) (fun s => (redis.lrange s key, s)).

Definition LLen (key : string) : M (Error + Z) :=
  issue (redis.LLen key) (fun s => (redis.llen s key, s)).

(** SCAN cursor MATCH aws-fail2ban-* COUNT count.  The server chooses the
    page and the next cursor; only keys that match the pattern come back. *)
Definition Scan (page : list string) (next : Z) (cursor count : Z)
  : M (Error + (list string * Z)) :=
  issue (redis.Scan cursor count)
        (fun s => ((List.filter matchesPattern page, next), s)).

(** *** [ipToKey], [keyToIp] *)

Definition ipToKey (ip : IP) : string := keyPrefix +:+ IP_String ip.

(** [key[len("aws-fail2ban-"):]] panics on a key shorter than the prefix. *)
Definition keyToIp (key : string) : M (option IP) :=
  if bool_decide (String.length key < String.length keyPrefix)%nat then panic
  else ret (ParseIP (string_drop (String.length keyPrefix) key)).

(** *** [Ban], [Unban] *)

Definition Ban (ip : IP) : M (option Error) :=
  emit (EvBan ip) ;;; ret None.

Definition Unban (ip : IP) : M (option Error) :=
  emit (EvUnban ip) ;;; ret None.

(** *** [AddInfraction] *)

Definition AddInfraction (ip : IP) : M (option Error) :=
  now <~ time_Now ;;
  r <~ RPush (ipToKey ip) (strconv.FormatInt (time.ToUnix now)) ;;
  match r with
  | inl err => ret (Some err)
  | inr llen =>
      log (DebugLog_infraction ip now) ;;;
      threshold <~
        (if bool_decide (llen >= MaxRetry) then
           log (InfoLog_banned ip llen) ;;;
           err <~ Ban ip ;;
           match err with
           | Some e => ret (Some e)
           | None =>
               if bool_decide (llen > MaxRetry) then
                 t <~ LTrim (ipToKey ip) (llen - MaxRetry) ;;
                 match t with
                 | inl e => ret (Some e)
                 | inr _ => ret None
                 end
               else ret None
           end
         else ret None) ;;
      match threshold with
      | Some e => ret (Some e)
      | None =>
          x <~ Expire (ipToKey ip) (2 * BanTime * time.Second) ;;
          match x with
          | inl e => ret (Some e)
          | inr _ => ret None
          end
      end
  end.

(** *** [manageState] *)

(** [len(l)] *)
Definition len {A} (l : list A) : Z := Z.of_nat (length l).

(** [l[i]], with the run-time panic of an index out of range. *)
Definition index {A} (l : list A) (i : Z) : M A :=
  if bool_decide (0 <= i) then
    match l !! Z.to_nat i with
    | Some x => ret x
    | None => panic
    end
  else panic.

Fixpoint listToInfractions_from (redisList : list string) (rv : list time.Time)
  : M (list time.Time) :=
  match redisList with
  | [] => ret rv
  | s :: rest =>
      match strconv.ParseInt s with
      | None =>
          log (ErrorLog_parse_time s) ;;;
          listToInfractions_from rest rv
      | Some unixtime =>
          listToInfractions_from rest (rv ++ [time.Unix unixtime])
      end
  end.

Definition listToInfractions (redisList : list string) : M (list time.Time) :=
  listToInfractions_from redisList [].

Definition bannedUntil (infractions : list time.Time) : M time.Time :=
  if bool_decide (len infractions < MaxRetry) then ret time.zero
  else
    last <~ index infractions (len infractions - 1) ;;
    ret (time.Add last (BanTime * time.Second)).

Definition bumpUnbanned (st : Stats) : Stats :=
  mkStats (keysEvaluated st) (scanIterations st) (ipsDeleted st)
          (ipsAffected st) (infractionsDeleted st) (ipsUnbanned st + 1).

Definition bumpDeleted (st : Stats) : Stats :=
  mkStats (keysEvaluated st) (scanIterations st) (ipsDeleted st + 1)
          (ipsAffected st) (infractionsDeleted st) (ipsUnbanned st).

Definition bumpAffected (i : Z) (st : Stats) : Stats :=
  mkStats (keysEvaluated st) (scanIterations st) (ipsDeleted st)
          (ipsAffected st + 1) (infractionsDeleted st + i) (ipsUnbanned st).

Definition bumpPage (n : Z) (st : Stats) : Stats :=
  mkStats (keysEvaluated st + n) (scanIterations st + 1) (ipsDeleted st)
          (ipsAffected st) (infractionsDeleted st) (ipsUnbanned st).

(** The closure [unban] of [manageState]. *)
Definition unban (ip : IP) (st : Stats) : M Stats :=
  log (InfoLog_unbanned ip) ;;;
  err <~ Unban ip ;;
  logIfErr err ;;;
  ret (bumpUnbanned st).

(** [for i = 0; i < limit; i++ { if time.Now().Sub(infractions[i]).Seconds()
    < FindTime { break } }], entered at index [i]; the result is the final
    value of [i]. *)
Equations? staleLoop (infractions : list time.Time) (limit i : Z)
  : M Z by wf (Z.to_nat (limit - i)) lt :=
staleLoop infractions limit i with decide (i < limit) => {
  | right _ => ret i
  | left _ =>
      now <~ time_Now ;;
      t <~ index infractions i ;;
      if time.SecondsLt (time.Sub now t) FindTime then ret i
      else staleLoop infractions limit (i + 1) }.
Proof. lia. Qed.

(** [limit]: the whole log, or the log without its last [MaxRetry] entries
    while the ban is running. *)
Definition scanLimit (ip : IP) (infractions : list time.Time)
    (endtime : time.Time) : M Z :=
  if negb (time.IsZero endtime) then
    now <~ time_Now ;;
    if time.Before now endtime then
      log (DebugLog_banned_until ip endtime) ;;;
      ret (len infractions - MaxRetry)
    else ret (len infractions)
  else ret (len infractions).

(** [if i == len(infractions) { ... } else if i > 0 { ... }] *)
Definition applyPolicy (key : string) (ip : IP) (infractions : list time.Time)
    (i : Z) (st : Stats) : M Stats :=
  if bool_decide (i = len infractions) then
    st <~ (if bool_decide (len infractions >= MaxRetry)
           then unban ip st else ret st) ;;
    d <~ Del key ;;
    match d with
    | inl err => log (ErrorLog_err err)
    | inr _ => ret tt
    end ;;;
    ret (bumpDeleted st)
  else if bool_decide (i > 0) then
    st <~ (if bool_decide (len infractions >= MaxRetry)
              && bool_decide (len infractions - i < MaxRetry)
           then unban ip st else ret st) ;;
    t <~ LTrim key i ;;
    match t with
    | inl err => log (ErrorLog_err err)
    | inr _ => ret tt
    end ;;;
    ret (bumpAffected i st)
  else ret st.

(** The body of [for _, key := range keys]. *)
Definition manageKey (key : string) (st : Stats) : M Stats :=
  ip <~ keyToIp key ;;
  match ip with
  | None => log (ErrorLog_parse_ip key) ;;; ret st
  | Some ip =>
      r <~ LRange key ;;
      match r with
      | inl err => log (ErrorLog_err err) ;;; ret st
      | inr redisList =>
          infractions <~ listToInfractions redisList ;;
          endtime <~ bannedUntil infractions ;;
          limit <~ scanLimit ip infractions endtime ;;
          i <~ staleLoop infractions limit 0 ;;
          applyPolicy key ip infractions i st
      end
  end.

Fixpoint forKeys (keys : list string) (st : Stats) : M Stats :=
  match keys with
  | [] => ret st
  | key :: rest => st' <~ manageKey key st ;; forKeys rest st'
  end.

(** One turn of the outer [for]: a SCAN, the keys of its page, the counters.
    The result carries the cursor that the server returned. *)
Definition scanPage (page : list string) (next : Z) (cursor count : Z)
    (st : Stats) : M (Stats * Z) :=
  r <~ Scan page next cursor count ;;
  reply <~ match r with
           | inl err => log (ErrorLog_err err) ;;; ret ([], 0)
           | inr reply => ret reply
           end ;;
  st <~ forKeys (fst reply) st ;;
  ret (bumpPage (len (fst reply)) st, snd reply).

(** The outer [for] of [manageState].  [pages] are the pages that the
    server returns to the successive SCAN commands; the cursor returned
    with the last of them is 0. *)
Fixpoint scanLoop (pages : list (list string)) (cursor count : Z) (st : Stats)
  : M Stats :=
  match pages with
  | [] => r <~ scanPage [] 0 cursor count st ;; ret (fst r)
  | [page] => r <~ scanPage page 0 cursor count st ;; ret (fst r)
  | page :: rest =>
      r <~ scanPage page (cursor + 1) cursor count st ;;
      if bool_decide (snd r = 0) then ret (fst r)
      else
        scanLoop rest (snd r)
                 (if bool_decide (count < 1000) then count * 2 else count)
                 (fst r)
  end.

Definition manageState (pages : list (list string)) : M unit :=
  start <~ time_Now ;;
  st <~ scanLoop pages 0 100 noStats ;;
  finish <~ time_Now ;;
  log (InfoLog_evaluated (keysEvaluated st) (scanIterations st)) ;;;
  (if bool_decide (ipsUnbanned st > 0)
   then log (InfoLog_ips_unbanned (ipsUnbanned st)) else ret tt) ;;;
  (if bool_decide (ipsDeleted st > 0)
   then log (InfoLog_ips_deleted (ipsDeleted st)) else ret tt) ;;;
  (if bool_decide (ipsAffected st > 0)
   then log (InfoLog_infractions_deleted (infractionsDeleted st) (ipsAffected st))
   else ret tt).

(** *** [NewServiceJailer] *)

(** [for i:=llen; i<MaxRetry; i++ { jailer.AddInfraction(ip) }] *)
Equations? topUp (ip : IP) (i : Z) : M unit
  by wf (Z.to_nat (MaxRetry - i)) lt :=
topUp ip i with decide (i < MaxRetry) => {
  | right _ => ret tt
  | left _ =>
      err <~ AddInfraction ip ;;
      logIfErr err ;;;
      topUp ip (i + 1) }.
Proof. lia. Qed.

(** "Ensure ip set contents are being managed": the loop over the members
    of the ip set. *)
Fixpoint resync (ips : list IP) : M unit :=
  match ips with
  | [] => ret tt
  | ip :: rest =>
      r <~ LLen (ipToKey ip) ;;
      match r with
      | inl err => log (ErrorLog_err err)
      | inr llen => topUp ip llen
      end ;;;
      resync rest
  end.

(** The background goroutine: [for { select { case <-jailer.quitChan: break;
    case <-time.After(period): jailer.manageState() } }].  The [break]
    leaves the [select], not the [for].  [sel] lists what the successive
    [select] statements receive. *)
Fixpoint background (sel : list Selected) : M unit :=
  match sel with
  | [] => ret tt
  | RecvQuit :: rest => background rest
  | TimerFired pages :: rest => manageState pages ;;; background rest
  end.

End Jailer.

Arguments Done {_ A} a w.
Arguments Panic {_ A} w.

Notation "x <~ m ;; k" := (bind m (fun x => k))
  (at level 100, m at next level, right associativity).
Notation "m ;;; k" := (bind m (fun _ => k))
  (at level 100, right associativity).

(** ** [WriteState] *)

Module http.

(** An [http.ResponseWriter]: the chunks that [Write] accepted, and the
    number of calls of [Write] so far. *)
Record ResponseWriter := mkWriter { body : list string; calls : nat }.

(** The error that the call of [Write] number [call] returned. *)
Inductive WriteError := WriteFailed (call : nat).

End http.

(** The line feed of the Go literals. *)
Definition lf : string := String (ascii_of_nat 10) EmptyString.

(** The four fragments of the page. *)
Definition fragments : list string :=
  [ "<html><body>" +:+ lf;
    "not implemented, instead refer to:<br/>" +:+ lf;
    "<tt>redis-cli -h &lt;ip&gt; -p &lt;port&gt; --scan --pattern &lt;prefix&gt;-*</tt>"
      +:+ lf;
    "</body></html>" +:+ lf ].

(** The variables of [WriteState]: [err], which the closure [write]
    captures, the writer, and the errors that [ErrorLog] received. *)
Record Writing := mkWriting {
  err : option http.WriteError;
  out : http.ResponseWriter;
  logged : list http.WriteError
}.

Section WriteState.

(** [broken n] tells whether the call of [Write] number [n] returns an
    error.  What such a call may have sent before it failed is not kept in
    the body. *)
Variable broken : nat → bool.

(** The closure [write]. *)
Definition write (s : string) (st : Writing) : Writing :=
  match err st with
  | Some _ => st
  | None =>
      if broken (http.calls (out st)) then
        mkWriting (Some (http.WriteFailed (http.calls (out st))))
                  (http.mkWriter (http.body (out st))
                                 (S (http.calls (out st))))
                  (logged st ++ [http.WriteFailed (http.calls (out st))])
      else
        mkWriting None
                  (http.mkWriter (http.body (out st) ++ [s])
                                 (S (http.calls (out st))))
                  (logged st)
  end.

Definition WriteState (w : http.ResponseWriter) : Writing :=
  let st := mkWriting None w [] in
  let st := write ("<html><body>" +:+ lf) st in
  let st := write ("not implemented, instead refer to:<br/>" +:+ lf) st in
  let st :=
    write ("<tt>redis-cli -h &lt;ip&gt; -p &lt;port&gt; --scan --pattern &lt;prefix&gt;-*</tt>"
           +:+ lf) st in
  let st := write ("</body></html>" +:+ lf) st in
  st.

End WriteState.

(** ** An instance of [Net]: IPv4 addresses in dotted-decimal form *)

Module ipv4.

Definition addr : Type := Z * Z * Z * Z.

Definition ToString (ip : addr) : string :=
  let '(a, b, c, d) := ip in
  strconv.FormatInt a +:+ "." +:+ strconv.FormatInt b +:+ "."
  +:+ strconv.FormatInt c +:+ "." +:+ strconv.FormatInt d.

Fixpoint fields (s cur : string) : list string :=
  match s with
  | EmptyString => [cur]
  | String c s' =>
      if Ascii.eqb c "." then cur :: fields s' EmptyString
      else fields s' (cur +:+ String c EmptyString)
  end.

(** One to three digits, no leading zero, at most 255. *)
Definition octet (s : string) : option Z :=
  match s with
  | String "0" (String _ _) => None
  | _ =>
      if (String.length s <=? 3)%nat then
        v ← strconv.unsigned s;
        if v <=? 255 then Some v else None
      else None
  end.

Definition Parse (s : string) : option addr :=
  match fields s EmptyString with
  | [a; b; c; d] =>
      a ← octet a; b ← octet b; c ← octet c; d ← octet d; Some (a, b, c, d)
  | _ => None
  end.

#[export] Instance net : Net :=
  {| IP := addr; IP_String := ToString; ParseIP := Parse |}.

End ipv4.

(** ** [net.ParseIP] on the IPv4-mapped form

    [net.ParseIP] also reads ["::ffff:a.b.c.d"], the IPv4-mapped IPv6 form
    of the address [a.b.c.d]; [String()] prints that address in
    dotted-decimal form. *)

Module ip46.

Definition mapped : string := "::ffff:".

Definition Parse (s : string) : option ipv4.addr :=
  if String.prefix mapped s
  then ipv4.Parse (string_drop (String.length mapped) s)
  else ipv4.Parse s.

Definition net : Net :=
  {| IP := ipv4.addr; IP_String := ipv4.ToString; ParseIP := Parse |}.

End ip46.

(** The configuration of the concrete scenarios. *)
Definition scenarioConfig : Config :=
  {| MaxRetry := 5; FindTime := 600; BanTime := 3600 |}.

(** An environment whose clock always reads [now] and whose server never
    fails. *)
Definition steady (now : time.Time) : Environment :=
  {| clock := fun _ => now; fails := fun _ => false |}.

(** The world before anything happened, over a given server state. *)
Definition initial `{Net} (s : gmap string redis.Entry) : World :=
  mkWorld s 0 0 [].

(** ** Vocabulary of the statements *)

Section Vocabulary.

Context `{Net} `{Config} `{Environment}.




(** The server after a successful [AddInfraction] that pushed [value]
    under [key]. *)
Definition pushed (key value : string) (s : gmap string redis.Entry)
  : gmap string redis.Entry :=
  let n := (redis.rpush key value s).1 in
  let s1 := (redis.rpush key value s).2 in
  let s2 := if bool_decide (n > MaxRetry) then redis.ltrim key (n - MaxRetry) s1
            else s1 in
  redis.expire key (redis.formatSec (2 * BanTime * time.Second)) s2.

(** The events of a successful [AddInfraction] whose RPUSH replied [n]. *)
Definition pushEvents (ip : IP) (now : time.Time) (n : Z) : list Event :=
  [EvCmd (redis.RPush (ipToKey ip) (strconv.FormatInt (time.ToUnix now))) true;
   EvLog (DebugLog_infraction ip now)]
  ++ (if bool_decide (n >= MaxRetry) then
        [EvLog (InfoLog_banned ip n); EvBan ip]
        ++ (if bool_decide (n > MaxRetry)
            then [EvCmd (redis.LTrim (ipToKey ip) (n - MaxRetry)) true] else [])
      else [])
  ++ [EvCmd (redis.Expire (ipToKey ip)
                          (redis.formatSec (2 * BanTime * time.Second))) true].

(** Is the event an RPUSH on [key]? *)
Definition isPushOn (key : string) (e : Event) : bool :=
  match e with
  | EvCmd (redis.RPush key' _) _ => bool_decide (key' = key)
  | _ => false
  end.

Definition pushesOn (key : string) (evs : list Event) : nat :=
  length (List.filter (isPushOn key) evs).

(** The parsed log: what [listToInfractions] returns. *)
Definition infractionsOf (redisList : list string) : list time.Time :=
  omap (fun s => time.Unix <$> strconv.ParseInt s) redisList.

(** The lines that [listToInfractions] logs. *)
Definition parseErrors (redisList : list string) : list Event :=
  omap (fun s => match strconv.ParseInt s with
                 | None => Some (EvLog (ErrorLog_parse_time s))
                 | Some _ => None
                 end) redisList.

(** The range of the arithmetic.  Go keeps the seconds of a [time.Time]
    since the year 1 in an [int64]: [time.Unix sec] wraps around when [sec]
    is above [maxUnix], and [Add] overflows past that second.  It compares
    [d.Seconds()], a [float64], with [FindTime]: up to 2^24 seconds the
    rounding of [d.Seconds()] cannot reach [FindTime] from below, and the
    comparison is the exact one.  Within the range below the arithmetic of
    the embedding, which is exact and unbounded, is that of Go. *)
Definition maxUnix : Z := 2 ^ 63 - 1 - 62135596800.

(** A timestamp that [time.Unix] gives without wrapping around. *)
Definition unwrapped (t : time.Time) : Prop := t <= time.Unix maxUnix.

(** A window on which the comparison of the ages is exact. *)
Definition exactWindow : Prop := 0 <= FindTime <= 2 ^ 24.

(** A ban whose end is computed without overflow. *)
Definition exactBan (endtime : time.Time) : Prop :=
  0 <= BanTime * time.Second < 2 ^ 63 ∧ endtime <= time.Unix maxUnix.

(** At the clock reading [now], the infraction of time [t] is at least
    [FindTime] seconds old, or younger. *)
Definition stale (now t : time.Time) : Prop :=
  FindTime * time.Second <= now - t.

Definition fresh (now t : time.Time) : Prop :=
  now - t < FindTime * time.Second.

(** What [bannedUntil] returns on a log. *)
Definition endtimeOf (infractions : list time.Time) : time.Time :=
  if bool_decide (len infractions < MaxRetry) then time.zero
  else time.Add (default 0 (last infractions)) (BanTime * time.Second).

(** The ban of the log runs at the reading [now]. *)
Definition activeBan (now : time.Time) (infractions : list time.Time) : bool :=
  negb (time.IsZero (endtimeOf infractions))
  && time.Before now (endtimeOf infractions).

(** The value of [limit] for a log checked at the reading [now]. *)
Definition limitAt (now : time.Time) (infractions : list time.Time) : Z :=
  if activeBan now infractions then len infractions - MaxRetry
  else len infractions.

(** [i] is where the loop over the log stops when it is entered at the
    clock reading number [n0] with the bound [limit]: every entry before
    [i] was stale when it was read, and the entry at [i], when [i] is below
    the bound, was fresh. *)
Definition boundary (n0 : nat) (infractions : list time.Time) (limit i : Z)
  : Prop :=
  0 <= i <= limit
  ∧ (∀ j, 0 <= j < i →
          ∃ n t, (n0 <= n)%nat ∧ infractions !! Z.to_nat j = Some t
                 ∧ stale (clock n) t)
  ∧ (i < limit →
     ∃ n t, (n0 <= n)%nat ∧ infractions !! Z.to_nat i = Some t
            ∧ fresh (clock n) t).

(** The server after the policy for a log of [n] parsed entries with
    boundary [i], when its command succeeds. *)
Definition policyStore (key : string) (n i : Z) (s : gmap string redis.Entry)
  : gmap string redis.Entry :=
  if bool_decide (i = n) then redis.del key s
  else if bool_decide (i > 0) then redis.ltrim key i s
  else s.

(** The policy calls [unban]. *)
Definition unbanDue (n i : Z) : Prop :=
  MaxRetry <= n ∧ (i = n ∨ (0 < i ∧ n - i < MaxRetry)).

(** Events that neither change the server nor call the enforcement. *)
Definition quiet (e : Event) : Prop :=
  match e with
  | EvLog _ => True
  | EvCmd (redis.LRange _) _ => True
  | EvCmd (redis.LLen _) _ => True
  | EvCmd (redis.Scan _ _) _ => True
  | _ => False
  end.

(** The keys that a pass visits when no SCAN fails. *)
Definition scannedKeys (pages : list (list string)) : list string :=
  concat (List.filter matchesPattern <$> pages).

(** The events that a report of [ip] may produce: log lines, the call of
    [Ban] for [ip], and RPUSH, LTRIM and EXPIRE on the key of [ip]. *)
Definition reportEvent (ip : IP) (e : Event) : Prop :=
  match e with
  | EvLog _ => True
  | EvBan ip' => ip' = ip
  | EvCmd (redis.RPush key _) _ => key = ipToKey ip
  | EvCmd (redis.LTrim key _) _ => key = ipToKey ip
  | EvCmd (redis.Expire key _) _ => key = ipToKey ip
  | _ => False
  end.

(** The events that the visit of [key] by a pass may produce: log lines,
    a call of [Unban] for the address that [key] names, and LRANGE, LTRIM
    and DEL on [key]. *)
Definition visitEvent (key : string) (e : Event) : Prop :=
  match e with
  | EvLog _ => True
  | EvUnban ip =>
      ParseIP (string_drop (String.length keyPrefix) key) = Some ip
  | EvCmd (redis.LRange key') _ => key' = key
  | EvCmd (redis.LTrim key' _) _ => key' = key
  | EvCmd (redis.Del key') _ => key' = key
  | _ => False
  end.

(** The events of a pass over [keys]: those of the visits and the SCAN
    commands. *)
Definition passEvent (keys : list string) (e : Event) : Prop :=
  match e with
  | EvCmd (redis.Scan _ _) _ => True
  | EvLog _ => True
  | _ => ∃ key, key ∈ keys ∧ visitEvent key e
  end.

(** The events of the resynchronisation of the members [ips]: lines of the
    log, LLEN on the key of a member, and the events of a report of a
    member. *)
Definition resyncEvent (ips : list IP) (e : Event) : Prop :=
  match e with
  | EvLog _ => True
  | EvCmd (redis.LLen key) _ => ∃ ip, ip ∈ ips ∧ key = ipToKey ip
  | _ => ∃ ip, ip ∈ ips ∧ reportEvent ip e
  end.

(** What the resynchronisation of the members [ips] does when the server
    is down: one LLEN for each member, and the line of its error. *)
Definition downEvents (ips : list IP) : list Event :=
  ips ≫= fun ip =>
    [EvCmd (redis.LLen (ipToKey ip)) false;
     EvLog (ErrorLog_err (StoreError (redis.LLen (ipToKey ip))))].

(** A command of the trace failed. *)
Definition failed (e : Event) : Prop :=
  match e with
  | EvCmd _ false => True
  | _ => False
  end.

(** The keys whose visit the events begin, in order. *)
Definition visited (evs : list Event) : list string :=
  omap (fun e => match e with
                 | EvLog (ErrorLog_parse_ip key) => Some key
                 | EvCmd (redis.LRange key) _ => Some key
                 | _ => None
                 end) evs.

(** Counting the events of a trace. *)
Definition count (p : Event → bool) (evs : list Event) : Z :=
  len (List.filter p evs).

Definition isUnban (e : Event) : bool :=
  match e with EvUnban _ => true | _ => false end.

Definition isDel (e : Event) : bool :=
  match e with EvCmd (redis.Del _) _ => true | _ => false end.

Definition isTrim (e : Event) : bool :=
  match e with EvCmd (redis.LTrim _ _) _ => true | _ => false end.

(** The event with which the visit of a key begins: the line that reports
    a key that names no address, or the LRANGE of the key. *)
Definition isVisit (e : Event) : bool :=
  match e with
  | EvLog (ErrorLog_parse_ip _) => true
  | EvCmd (redis.LRange _) _ => true
  | _ => false
  end.

(** The sum of the offsets of the LTRIM commands of a trace. *)
Definition trimmed (evs : list Event) : Z :=
  foldr (fun e acc => match e with
                      | EvCmd (redis.LTrim _ start) _ => start + acc
                      | _ => acc
                      end) 0 evs.

(** The COUNT arguments of the SCAN commands of a trace, in order. *)
Definition scanCounts (evs : list Event) : list Z :=
  omap (fun e => match e with
                 | EvCmd (redis.Scan _ c) _ => Some c
                 | _ => None
                 end) evs.

(** The COUNT arguments of [n] successive turns of the loop of the pass
    that starts with [c]. *)
Fixpoint countsFrom (n : nat) (c : Z) : list Z :=
  match n with
  | O => []
  | S n' => c :: countsFrom n' (if bool_decide (c < 1000) then c * 2 else c)
  end.

(** A line of the log other than the report of a key that names no
    address. *)
Definition plain (e : Event) : Prop :=
  match e with
  | EvLog (ErrorLog_parse_ip _) => False
  | EvLog _ => True
  | _ => False
  end.

(** The counters [st'] are the counters [st] advanced by the calls of
    [Unban] and the DEL and LTRIM commands of [evs]. *)
Definition tally (st : Stats) (evs : list Event) (st' : Stats) : Prop :=
  ipsUnbanned st' = ipsUnbanned st + count isUnban evs
  ∧ ipsDeleted st' = ipsDeleted st + count isDel evs
  ∧ ipsAffected st' = ipsAffected st + count isTrim evs
  ∧ infractionsDeleted st' = infractionsDeleted st + trimmed evs.

(** The counters after a page: the keys and the iterations are counted
    too. *)
Definition pageTally (st : Stats) (evs : list Event) (st' : Stats) : Prop :=
  tally st evs st'
  ∧ keysEvaluated st' = keysEvaluated st + count isVisit evs
  ∧ scanIterations st' = scanIterations st + len (scanCounts evs).

(** The counters that the events of a pass amount to. *)
Definition observed (evs : list Event) : Stats :=
  mkStats (count isVisit evs) (len (scanCounts evs)) (count isDel evs)
          (count isTrim evs) (trimmed evs) (count isUnban evs).

(** The lines with which [manageState] ends, for the counters [st]. *)
Definition summary (st : Stats) : list Event :=
  [EvLog (InfoLog_evaluated (keysEvaluated st) (scanIterations st))]
  ++ (if bool_decide (ipsUnbanned st > 0)
      then [EvLog (InfoLog_ips_unbanned (ipsUnbanned st))] else [])
  ++ (if bool_decide (ipsDeleted st > 0)
      then [EvLog (InfoLog_ips_deleted (ipsDeleted st))] else [])
  ++ (if bool_decide (ipsAffected st > 0)
      then [EvLog (InfoLog_infractions_deleted (infractionsDeleted st)
                                               (ipsAffected st))]
      else []).

End Vocabulary.

(** * Properties *)

(** ** The Redis server *)

Lemma lrange_rpush_eq (s : gmap string redis.Entry) key v :
  redis.lrange (redis.rpush key v s).2 key = redis.lrange s key ++ [v].
Proof. unfold redis.rpush, redis.lrange; simpl. by rewrite lookup_insert_eq. Qed.

Lemma lrange_rpush_ne (s : gmap string redis.Entry) key key' v :
  key ≠ key' → redis.lrange (redis.rpush key v s).2 key' = redis.lrange s key'.
Proof.
  intros Hne. unfold redis.rpush, redis.lrange; simpl.
  by rewrite lookup_insert_ne.
Qed.

Lemma rpush_reply (s : gmap string redis.Entry) key v :
  (redis.rpush key v s).1 = redis.llen s key + 1.
Proof. unfold redis.rpush, redis.llen; simpl. rewrite length_app; simpl. lia. Qed.

Lemma lrange_ltrim_eq (s : gmap string redis.Entry) key start :
  0 <= start →
  redis.lrange (redis.ltrim key start s) key
  = drop (Z.to_nat start) (redis.lrange s key).
Proof.
  intros Hs. unfold redis.ltrim, redis.lrange.
  destruct (s !! key) as [e|] eqn:He; [|by rewrite He, drop_nil].
  rewrite bool_decide_eq_false_2 by lia.
  destruct (drop (Z.to_nat start) (redis.items e)) eqn:Hd.
  - by rewrite lookup_delete_eq.
  - by rewrite lookup_insert_eq.
Qed.

Lemma lrange_ltrim_ne (s : gmap string redis.Entry) key key' start :
  key ≠ key' → redis.lrange (redis.ltrim key start s) key' = redis.lrange s key'.
Proof.
  intros Hne. unfold redis.ltrim, redis.lrange.
  destruct (s !! key) as [e|]; [|done].
  destruct (drop _ _); by rewrite ?lookup_delete_ne, ?lookup_insert_ne.
Qed.

Lemma lrange_expire_eq (s : gmap string redis.Entry) key secs :
  0 < secs → redis.lrange (redis.expire key secs s) key = redis.lrange s key.
Proof.
  intros Hs. unfold redis.expire, redis.lrange.
  destruct (s !! key) as [e|] eqn:He; [|by rewrite He].
  rewrite bool_decide_eq_false_2 by lia. by rewrite lookup_insert_eq.
Qed.

Lemma lrange_expire_ne (s : gmap string redis.Entry) key key' secs :
  key ≠ key' → redis.lrange (redis.expire key secs s) key' = redis.lrange s key'.
Proof.
  intros Hne. unfold redis.expire, redis.lrange.
  destruct (s !! key) as [e|]; [|done].
  case_bool_decide; by rewrite ?lookup_delete_ne, ?lookup_insert_ne.
Qed.

Lemma lrange_expire_le (s : gmap string redis.Entry) key secs :
  (length (redis.lrange (redis.expire key secs s) key)
   <= length (redis.lrange s key))%nat.
Proof.
  unfold redis.expire, redis.lrange.
  destruct (s !! key) as [e|] eqn:He; [|by rewrite He].
  case_bool_decide; rewrite ?lookup_delete_eq, ?lookup_insert_eq; simpl; lia.
Qed.

Lemma ttlOf_expire (s : gmap string redis.Entry) key secs :
  0 < secs → redis.lrange s key ≠ [] →
  redis.ttlOf (redis.expire key secs s) key = Some secs.
Proof.
  intros Hs. unfold redis.expire, redis.lrange, redis.ttlOf.
  destruct (s !! key) as [e|] eqn:He; [|done]. intros _.
  rewrite bool_decide_eq_false_2 by lia. by rewrite lookup_insert_eq.
Qed.

Lemma lrange_del_eq (s : gmap string redis.Entry) key :
  redis.lrange (redis.del key s) key = [].
Proof. unfold redis.del, redis.lrange. by rewrite lookup_delete_eq. Qed.

Lemma lrange_del_ne (s : gmap string redis.Entry) key key' :
  key ≠ key' → redis.lrange (redis.del key s) key' = redis.lrange s key'.
Proof. intros. unfold redis.del, redis.lrange. by rewrite lookup_delete_ne. Qed.

Lemma formatSec_seconds (n : Z) : redis.formatSec (n * time.Second) = n.
Proof.
  unfold redis.formatSec, time.Second.
  rewrite bool_decide_eq_false_2 by lia.
  apply Z.quot_mul. lia.
Qed.


(** ** The jailer *)

Section Properties.

Context `{Net} `{Config} `{Environment}.

Ltac exec :=
  unfold AddInfraction, Ban, Unban, RPush, LTrim, Expire, Del, LRange, LLen,
    issue, log, logIfErr, emit, time_Now, bind, ret, panic; simpl.

Ltac split_cases :=
  repeat match goal with
    | Hok : ∀ n, fails n = false |- context [fails ?n] => rewrite (Hok n); simpl
    | |- context [fails ?n] => destruct (fails n) eqn:?; simpl
    | |- context [bool_decide ?P] => destruct (bool_decide_reflect P); simpl
    end.

(** *** [AddInfraction] *)

(** A call that returns nil has pushed, trimmed when above the threshold,
    and refreshed the time to live. *)
Lemma AddInfraction_nil_store ip w w' :
  AddInfraction ip w = Done None w' →
  store w' = pushed (ipToKey ip)
               (strconv.FormatInt (time.ToUnix (clock (tick w)))) (store w).
Proof.
  unfold pushed. exec. split_cases; intros [= <-]; simpl; try done; lia.
Qed.

(** Without failures of the server the call returns nil. *)
Lemma AddInfraction_ok ip w :
  (∀ n, fails n = false) →
  AddInfraction ip w
  = Done None
      (mkWorld
         (pushed (ipToKey ip)
            (strconv.FormatInt (time.ToUnix (clock (tick w)))) (store w))
         (S (tick w))
         (if bool_decide (redis.llen (store w) (ipToKey ip) + 1 > MaxRetry)
          then S (S (S (ncmd w))) else S (S (ncmd w)))
         (trace w ++ pushEvents ip (clock (tick w))
                       (redis.llen (store w) (ipToKey ip) + 1))).
Proof.
  intros Hok. unfold pushed, pushEvents. rewrite <- rpush_reply with (v := strconv.FormatInt (time.ToUnix (clock (tick w)))).
  exec. split_cases; try lia; repeat rewrite <- app_assoc; simpl; done.
Qed.

Lemma lrange_pushed_ne key key' v (s : gmap string redis.Entry) :
  key ≠ key' → redis.lrange (pushed key v s) key' = redis.lrange s key'.
Proof.
  intros Hne. unfold pushed.
  rewrite lrange_expire_ne by done.
  case_bool_decide; rewrite ?lrange_ltrim_ne by done; by apply lrange_rpush_ne.
Qed.

Lemma lrange_pushed_eq key v (s : gmap string redis.Entry) :
  0 <= MaxRetry → 0 < BanTime →
  redis.lrange (pushed key v s) key
  = drop (length (redis.lrange s key ++ [v]) - Z.to_nat MaxRetry)
         (redis.lrange s key ++ [v]).
Proof.
  intros HM HB. unfold pushed.
  rewrite formatSec_seconds, lrange_expire_eq, rpush_reply by lia.
  unfold redis.llen. case_bool_decide as Hgt.
  - rewrite lrange_ltrim_eq, lrange_rpush_eq by lia.
    f_equal. rewrite length_app; simpl. lia.
  - rewrite lrange_rpush_eq.
    replace (_ - _)%nat with 0%nat by (rewrite length_app; simpl; lia). done.
Qed.

Lemma llen_pushed_le key v (s : gmap string redis.Entry) :
  0 <= MaxRetry → redis.llen (pushed key v s) key <= MaxRetry.
Proof.
  intros HM. unfold pushed, redis.llen.
  etransitivity; [apply inj_le, lrange_expire_le|].
  rewrite rpush_reply. unfold redis.llen. case_bool_decide as Hgt.
  - rewrite lrange_ltrim_eq, lrange_rpush_eq, length_drop by lia.
    rewrite length_app; simpl. lia.
  - rewrite lrange_rpush_eq, length_app; simpl. lia.
Qed.

Lemma llen_pushed key v (s : gmap string redis.Entry) :
  0 <= MaxRetry → 0 < BanTime →
  redis.llen (pushed key v s) key = Z.min (redis.llen s key + 1) MaxRetry.
Proof.
  intros HM HB. unfold redis.llen. rewrite lrange_pushed_eq by done.
  rewrite length_drop, length_app; simpl. lia.
Qed.

Lemma AddInfraction_trims ip w :
  ∃ r w' evs,
    AddInfraction ip w = Done r w'
    ∧ trace w' = trace w ++ evs
    ∧ ((∀ n, fails n = false) → r = None)
    ∧ (fails (ncmd w) = false →
       MaxRetry < redis.llen (store w) (ipToKey ip) + 1 →
       ∃ ok, EvCmd (redis.LTrim (ipToKey ip)
                      (redis.llen (store w) (ipToKey ip) + 1 - MaxRetry)) ok
             ∈ evs).
Proof.
  unfold redis.llen.
  unfold AddInfraction, Ban, RPush, LTrim, Expire, issue, log, emit, time_Now,
    bind, ret; simpl.
  repeat match goal with
    | |- context [fails ?n] => destruct (fails n) eqn:?; simpl
    | |- context [bool_decide ?P] => destruct (bool_decide_reflect P); simpl
    end.
  all: eexists _, _, _; split; [reflexivity|]; simpl.
  all: split; [repeat rewrite <- app_assoc; simpl; reflexivity|].
  all: rewrite ?length_app in *; simpl in *.
  all: split; [first [done | intros Hok; congruence]|].
  all: intros Hf Hlt; try discriminate; try lia.
  all: eexists; rewrite list_elem_of_In; simpl.
  all: repeat (first [left; f_equal; f_equal; lia | right]).
Qed.

(** C4.  A call of [AddInfraction] returns nil when the server does not
    fail, and after a call that returns nil, whatever the length of the log
    before, the stored log is no longer than [MaxRetry].  Whenever the
    append replies a length above [MaxRetry], the LTRIM of the call is
    issued, and the log that a successful call leaves is the log before
    with the new entry appended, cut down to its last [MaxRetry] entries. *)
Theorem AddInfraction_caps_log ip w :
  0 <= MaxRetry →
  ∃ r w' evs,
    AddInfraction ip w = Done r w'
    ∧ trace w' = trace w ++ evs
    ∧ ((∀ n, fails n = false) → r = None)
    ∧ (fails (ncmd w) = false →
       MaxRetry < redis.llen (store w) (ipToKey ip) + 1 →
       ∃ ok, EvCmd (redis.LTrim (ipToKey ip)
                      (redis.llen (store w) (ipToKey ip) + 1 - MaxRetry)) ok
             ∈ evs)
    ∧ (r = None →
       redis.llen (store w') (ipToKey ip) <= MaxRetry
       ∧ (0 < BanTime →
          let l := redis.lrange (store w) (ipToKey ip)
                   ++ [strconv.FormatInt (time.ToUnix (clock (tick w)))] in
          redis.lrange (store w') (ipToKey ip)
          = drop (length l - Z.to_nat MaxRetry) l)).
Proof.
  intros HM.
  destruct (AddInfraction_trims ip w) as (r & w' & evs & Hrun & Htr & Hnil & Htrim).
  exists r, w', evs. split; [exact Hrun|]. split; [exact Htr|].
  split; [exact Hnil|]. split; [exact Htrim|].
  intros ->. apply AddInfraction_nil_store in Hrun. rewrite Hrun.
  split; [by apply llen_pushed_le|].
  intros HB l. by apply lrange_pushed_eq.
Qed.

Lemma ttlOf_pushed key v (s : gmap string redis.Entry) :
  1 <= MaxRetry → 0 < BanTime →
  redis.ttlOf (pushed key v s) key = Some (2 * BanTime).
Proof.
  intros HM HB. unfold pushed. rewrite formatSec_seconds.
  apply ttlOf_expire; [lia|].
  rewrite rpush_reply. unfold redis.llen.
  intros Hnil. apply (f_equal length) in Hnil. revert Hnil.
  case_bool_decide as Hgt.
  - rewrite lrange_ltrim_eq, lrange_rpush_eq, length_drop by lia.
    rewrite length_app; simpl. lia.
  - rewrite lrange_rpush_eq, length_app; simpl. lia.
Qed.

(** The ways in which a call of [AddInfraction] ends. *)
Lemma AddInfraction_cases ip w :
  ∃ r w' evs,
    AddInfraction ip w = Done r w'
    ∧ trace w' = trace w ++ evs
    ∧ ((∃ v, evs = [EvCmd (redis.RPush (ipToKey ip) v) false])
       ∨ (∃ start, EvCmd (redis.LTrim (ipToKey ip) start) false ∈ evs)
       ∨ (EvCmd (redis.Expire (ipToKey ip) (2 * BanTime)) false ∈ evs)
       ∨ (r = None
          ∧ EvCmd (redis.Expire (ipToKey ip) (2 * BanTime)) true ∈ evs)).
Proof.
  rewrite <- (formatSec_seconds (2 * BanTime)).
  exec. split_cases.
  all: eexists _, _, _; split; [reflexivity|]; simpl.
  all: split; [repeat rewrite <- app_assoc; simpl; reflexivity|].
  all: first
    [ left; eexists; reflexivity
    | right; left; eexists; apply list_elem_of_In; simpl; tauto
    | right; right; left; apply list_elem_of_In; simpl; tauto
    | right; right; right; split; [done|];
      apply list_elem_of_In; simpl; tauto ].
Qed.

(** C5, as amended.  A call of [AddInfraction] in which the append succeeds
    and the trim of the threshold branch, when it is issued, does not fail,
    issues the refresh of the key's time to live to [2 * BanTime] seconds;
    when that command succeeds the key's time to live is [2 * BanTime]. *)
Theorem AddInfraction_refreshes_ttl ip w :
  ∃ r w' evs,
    AddInfraction ip w = Done r w'
    ∧ trace w' = trace w ++ evs
    ∧ ((∃ v, EvCmd (redis.RPush (ipToKey ip) v) true ∈ evs) →
       (∀ start, EvCmd (redis.LTrim (ipToKey ip) start) false ∉ evs) →
       ∃ ok, EvCmd (redis.Expire (ipToKey ip) (2 * BanTime)) ok ∈ evs
             ∧ (ok = true → 1 <= MaxRetry → 0 < BanTime →
                redis.ttlOf (store w') (ipToKey ip) = Some (2 * BanTime))).
Proof.
  destruct (AddInfraction_cases ip w) as (r & w' & evs & Hrun & Htr & Hcase).
  exists r, w', evs. split; [done|]. split; [done|].
  intros [v Hpush] Htrim.
  destruct Hcase as [[v' ->]|[[start Hin]|[Hin|[-> Hin]]]].
  - apply list_elem_of_In in Hpush. simpl in Hpush.
    destruct Hpush as [[=]|[]].
  - by destruct (Htrim start).
  - exists false. split; [done|]. intros [=].
  - exists true. split; [done|]. intros _ HM HB.
    rewrite (AddInfraction_nil_store _ _ _ Hrun). by apply ttlOf_pushed.
Qed.






(** *** Start-up resynchronisation *)

Lemma topUp_step ip i :
  topUp ip i
  = if bool_decide (i < MaxRetry)
    then (err <~ AddInfraction ip ;; logIfErr err ;;; topUp ip (i + 1))
    else ret tt.
Proof.
  etransitivity; [apply topUp_equation_1|].
  destruct (decide (i < MaxRetry)); simpl.
  - by rewrite bool_decide_eq_true_2.
  - by rewrite bool_decide_eq_false_2.
Qed.

Lemma pushesOn_app key (evs1 evs2 : list Event) :
  pushesOn key (evs1 ++ evs2) = (pushesOn key evs1 + pushesOn key evs2)%nat.
Proof. unfold pushesOn. by rewrite List.filter_app, length_app. Qed.

Lemma pushesOn_pushEvents key ip now n :
  pushesOn key (pushEvents ip now n)
  = if bool_decide (key = ipToKey ip) then 1%nat else 0%nat.
Proof.
  unfold pushEvents. rewrite !pushesOn_app.
  unfold pushesOn at 1; simpl.
  replace (pushesOn key (if bool_decide (n >= MaxRetry) then _ else _))
    with 0%nat by (by repeat case_bool_decide).
  unfold pushesOn; simpl.
  destruct (bool_decide_reflect (ipToKey ip = key)) as [<-|Hne].
  - by rewrite bool_decide_eq_true_2.
  - by rewrite bool_decide_eq_false_2.
Qed.

Lemma llen_nonneg (s : gmap string redis.Entry) key : 0 <= redis.llen s key.
Proof. unfold redis.llen. lia. Qed.

(** The loop of [AddInfraction] calls for one member of the ip set, entered
    with the length that LLEN replied. *)
Lemma topUp_spec ip (m : nat) :
  0 < BanTime → (∀ n, fails n = false) →
  ∀ i w,
    Z.to_nat (MaxRetry - i) = m →
    i = redis.llen (store w) (ipToKey ip) →
    ∃ w' evs,
      topUp ip i w = Done tt w'
      ∧ trace w' = trace w ++ evs
      ∧ (∀ key, pushesOn key evs
                = if bool_decide (key = ipToKey ip) then m else 0%nat)
      ∧ redis.llen (store w') (ipToKey ip) = Z.max i MaxRetry
      ∧ (∀ key, ipToKey ip ≠ key →
                redis.lrange (store w') key = redis.lrange (store w) key)
      ∧ (m = 0%nat → store w' = store w).
Proof.
  intros HB Hok. induction m as [|m IH]; intros i w Hm Hi.
  - exists w, []. rewrite topUp_step, bool_decide_eq_false_2 by lia.
    split; [done|]. split; [by rewrite app_nil_r|].
    split; [intros; by case_bool_decide|]. split; [lia|]. done.
  - pose proof (llen_nonneg (store w) (ipToKey ip)) as Hnn.
    rewrite topUp_step, bool_decide_eq_true_2 by lia.
    unfold bind at 1. rewrite AddInfraction_ok by done.
    unfold bind at 1. simpl.
    match goal with |- context [topUp ip (i + 1) ?w1] =>
      destruct (IH (i + 1) w1) as (w' & evs & Hrun & Htr & Hcnt & Hlen & Hfr & _)
    end; [lia| simpl; rewrite llen_pushed by lia; lia |].
    simpl in Htr, Hfr.
    eexists w', _. split; [done|].
    split; [by rewrite Htr, <- app_assoc|].
    split; [|split; [lia|split; [|done]]].
    + intros key. rewrite pushesOn_app, pushesOn_pushEvents, Hcnt.
      destruct (bool_decide (key = ipToKey ip)); simpl; lia.
    + intros key Hne. rewrite Hfr by done. by apply lrange_pushed_ne.
Qed.

Lemma resync_spec ips :
  0 < BanTime → (∀ n, fails n = false) →
  ∀ w, ∃ w' evs,
    resync ips w = Done tt w'
    ∧ trace w' = trace w ++ evs
    ∧ ∀ key,
        (key ∈ ipToKey <$> ips →
         redis.llen (store w') key = Z.max (redis.llen (store w) key) MaxRetry
         ∧ pushesOn key evs = Z.to_nat (MaxRetry - redis.llen (store w) key))
        ∧ (key ∉ ipToKey <$> ips →
           redis.lrange (store w') key = redis.lrange (store w) key
           ∧ pushesOn key evs = 0%nat).
Proof.
  intros HB Hok. induction ips as [|ip ips IH]; intros w.
  - exists w, []. split; [done|]. split; [by rewrite app_nil_r|].
    intros key. split; [|done]. rewrite fmap_nil. by intros ?%elem_of_nil.
  - simpl. unfold bind at 1. unfold LLen, issue. rewrite Hok. simpl.
    unfold bind at 1.
    match goal with |- context [topUp ip ?i ?w1] =>
      destruct (topUp_spec ip (Z.to_nat (MaxRetry - i)) HB Hok i w1)
        as (w1' & evs1 & Hrun1 & Htr1 & Hcnt1 & Hlen1 & Hfr1 & _)
    end; [done..|].
    simpl in Htr1, Hlen1, Hfr1. rewrite Hrun1.
    destruct (IH w1') as (w' & evs & Hrun & Htr & Hkeys).
    exists w', ([EvCmd (redis.LLen (ipToKey ip)) true] ++ evs1 ++ evs).
    split; [done|].
    split; [by rewrite Htr, Htr1, <- !app_assoc|].
    intros key. destruct (Hkeys key) as [Hin Hout].
    rewrite ?fmap_cons, elem_of_cons, !pushesOn_app, Hcnt1.
    change (pushesOn key [EvCmd (redis.LLen (ipToKey ip)) true]) with 0%nat.
    pose proof (llen_nonneg (store w) key) as Hnn.
    destruct (decide (key ∈ ipToKey <$> ips)) as [Hmem|Hmem].
    + destruct (Hin Hmem) as [Hl Hp]. rewrite Hl, Hp.
      split; [intros _|tauto].
      case_bool_decide as Hk.
      * subst key. rewrite Hlen1. lia.
      * unfold redis.llen. rewrite (Hfr1 key) by done. lia.
    + destruct (Hout Hmem) as [Hl Hp]. rewrite Hp.
      unfold redis.llen at 1. rewrite Hl. fold (redis.llen (store w1') key).
      split.
      * intros [->|?]; [|done].
        rewrite bool_decide_eq_true_2 by done. rewrite Hlen1. lia.
      * intros Hno. rewrite bool_decide_eq_false_2 by tauto.
        split; [|done]. apply Hfr1. intros <-. tauto.
Qed.

(** Nothing is appended for members whose log is long enough. *)
Lemma resync_noop ips :
  ∀ w, (∀ ip, ip ∈ ips → MaxRetry <= redis.llen (store w) (ipToKey ip)) →
       ∃ w' evs,
         resync ips w = Done tt w'
         ∧ trace w' = trace w ++ evs
         ∧ store w' = store w
         ∧ ∀ key, pushesOn key evs = 0%nat.
Proof.
  induction ips as [|ip ips IH]; intros w Hlong.
  - exists w, []. split; [done|]. by rewrite app_nil_r.
  - assert (MaxRetry <= redis.llen (store w) (ipToKey ip)) as Hip
      by (apply Hlong; by left).
    simpl. unfold bind at 1. unfold LLen, issue.
    destruct (fails (ncmd w)); simpl; unfold bind at 1; simpl.
    + match goal with |- context [resync ips ?w1] =>
        destruct (IH w1) as (w' & evs & Hrun & Htr & Hst & Hcnt)
      end; [intros; apply Hlong; by right|].
      simpl in Htr, Hst. eexists w', (_ :: _ :: evs). split; [done|].
      split; [by rewrite Htr, <- !app_assoc|]. split; [done|].
      intros key. apply (Hcnt key).
    + rewrite topUp_step, bool_decide_eq_false_2 by lia. simpl.
      match goal with |- context [resync ips ?w1] =>
        destruct (IH w1) as (w' & evs & Hrun & Htr & Hst & Hcnt)
      end; [intros; apply Hlong; by right|].
      simpl in Htr, Hst. eexists w', (_ :: evs). split; [done|].
      split; [by rewrite Htr, <- !app_assoc|]. split; [done|].
      intros key. apply (Hcnt key).
Qed.

(** C8.  The resynchronisation appends, for each member of the ip set,
    [max 0 (MaxRetry - length of its log)] infractions.  Run again with the
    same members and nothing in between, it appends nothing and leaves the
    server as it is; no log is longer than before the first run or than
    [MaxRetry]. *)
Theorem resync_idempotent ips w :
  0 < BanTime → (∀ n, fails n = false) →
  ∃ w1 evs1 w2 evs2,
    resync ips w = Done tt w1 ∧ trace w1 = trace w ++ evs1
    ∧ resync ips w1 = Done tt w2 ∧ trace w2 = trace w1 ++ evs2
    ∧ (∀ ip, ip ∈ ips →
             pushesOn (ipToKey ip) evs1
             = Z.to_nat (Z.max 0 (MaxRetry - redis.llen (store w) (ipToKey ip))))
    ∧ (∀ key, pushesOn key evs2 = 0%nat)
    ∧ store w2 = store w1
    ∧ (∀ key, redis.llen (store w2) key
              <= Z.max (redis.llen (store w) key) MaxRetry).
Proof.
  intros HB Hok.
  destruct (resync_spec ips HB Hok w) as (w1 & evs1 & Hrun1 & Htr1 & Hkeys).
  destruct (resync_noop ips w1) as (w2 & evs2 & Hrun2 & Htr2 & Hst & Hcnt).
  { intros ip Hip. destruct (Hkeys (ipToKey ip)) as [Hin _].
    destruct Hin as [-> _]; [by apply list_elem_of_fmap_2|]. lia. }
  exists w1, evs1, w2, evs2. repeat (split; [done|]).
  split; [|split; [done|split; [done|]]].
  - intros ip Hip. destruct (Hkeys (ipToKey ip)) as [Hin _].
    destruct Hin as [_ ->]; [by apply list_elem_of_fmap_2|]. lia.
  - intros key. rewrite Hst. destruct (Hkeys key) as [Hin Hout].
    destruct (decide (key ∈ ipToKey <$> ips)) as [Hmem|Hmem].
    + destruct (Hin Hmem) as [-> _]. lia.
    + destruct (Hout Hmem) as [Hl _]. unfold redis.llen. rewrite Hl. lia.
Qed.

(** *** The maintenance pass *)

Lemma listToInfractions_from_spec redisList :
  ∀ rv w,
    listToInfractions_from redisList rv w
    = Done (rv ++ infractionsOf redisList)
           (mkWorld (store w) (tick w) (ncmd w)
                    (trace w ++ parseErrors redisList)).
Proof.
  induction redisList as [|s rest IH]; intros rv w; simpl.
  - unfold ret. rewrite !app_nil_r. by destruct w.
  - unfold infractionsOf, parseErrors in *. simpl.
    destruct (strconv.ParseInt s) as [v|]; simpl.
    + rewrite IH. by rewrite <- app_assoc.
    + unfold bind, log, emit. rewrite IH; simpl. by rewrite <- app_assoc.
Qed.

Lemma listToInfractions_spec redisList w :
  listToInfractions redisList w
  = Done (infractionsOf redisList)
         (mkWorld (store w) (tick w) (ncmd w)
                  (trace w ++ parseErrors redisList)).
Proof. apply listToInfractions_from_spec. Qed.

Lemma parseErrors_quiet redisList : Forall quiet (parseErrors redisList).
Proof.
  unfold parseErrors. induction redisList as [|s rest IH]; simpl; [done|].
  destruct (strconv.ParseInt s); simpl; [done|]. by constructor.
Qed.

Lemma infractionsOf_app l1 l2 :
  infractionsOf (l1 ++ l2) = infractionsOf l1 ++ infractionsOf l2.
Proof. apply omap_app. Qed.

Lemma index_lookup {A} (l : list A) (i : Z) (x : A) w :
  0 <= i → l !! Z.to_nat i = Some x → index l i w = Done x w.
Proof.
  intros Hi Hx. unfold index. rewrite bool_decide_eq_true_2 by done.
  by rewrite Hx.
Qed.

Lemma bannedUntil_spec infractions w :
  1 <= MaxRetry ∨ infractions ≠ [] →
  bannedUntil infractions w = Done (endtimeOf infractions) w.
Proof.
  intros Hne. unfold bannedUntil, endtimeOf, len.
  case_bool_decide as Hlt; [done|].
  assert (infractions ≠ []) as Hnil.
  { destruct Hne as [?|?]; [|done]. intros ->. simpl in *. lia. }
  unfold bind.
  destruct (last infractions) as [t|] eqn:Hlast.
  - rewrite (index_lookup _ _ t).
    + done.
    + destruct infractions; [done|]. simpl. lia.
    + rewrite last_lookup in Hlast. rewrite <- Hlast. f_equal.
      destruct infractions; [done|]. simpl. lia.
  - by apply last_None in Hlast.
Qed.

Lemma scanLimit_spec ip infractions w :
  ∃ w' evs,
    scanLimit ip infractions (endtimeOf infractions) w
    = Done (limitAt (clock (tick w)) infractions) w'
    ∧ store w' = store w ∧ ncmd w' = ncmd w ∧ (tick w <= tick w')%nat
    ∧ trace w' = trace w ++ evs ∧ Forall quiet evs.
Proof.
  unfold scanLimit, limitAt, activeBan.
  destruct (time.IsZero (endtimeOf infractions)); simpl.
  - exists w, []. rewrite app_nil_r. by split_and!.
  - unfold bind, time_Now. destruct (time.Before _ _); simpl.
    + eexists _, [_]. split; [reflexivity|]. simpl.
      split_and!; try done; [lia|by repeat constructor].
    + eexists _, []. split; [reflexivity|]. simpl.
      rewrite app_nil_r. split_and!; try done; lia.
Qed.

Lemma staleLoop_step infractions limit i :
  staleLoop infractions limit i
  = if bool_decide (i < limit)
    then (now <~ time_Now ;;
          t <~ index infractions i ;;
          if time.SecondsLt (time.Sub now t) FindTime then ret i
          else staleLoop infractions limit (i + 1))
    else ret i.
Proof.
  etransitivity; [apply staleLoop_equation_1|].
  destruct (decide (i < limit)); simpl.
  - by rewrite bool_decide_eq_true_2.
  - by rewrite bool_decide_eq_false_2.
Qed.

(** The loop over the log returns, without a panic when the bound is within
    the log, and its result is a boundary. *)
Lemma staleLoop_spec infractions limit (m : nat) :
  limit <= len infractions →
  ∀ i w,
    0 <= i → Z.to_nat (limit - i) = m →
    ∃ r w',
      staleLoop infractions limit i w = Done r w'
      ∧ store w' = store w ∧ ncmd w' = ncmd w ∧ trace w' = trace w
      ∧ (tick w <= tick w')%nat
      ∧ i <= r ∧ (i <= limit → r <= limit)
      ∧ (∀ j, i <= j < r →
              ∃ n t, (tick w <= n)%nat ∧ infractions !! Z.to_nat j = Some t
                     ∧ stale (clock n) t)
      ∧ (r < limit →
         ∃ n t, (tick w <= n)%nat ∧ infractions !! Z.to_nat r = Some t
                ∧ fresh (clock n) t).
Proof.
  intros Hlim. induction m as [|m IH]; intros i w Hi Hm.
  - exists i, w. rewrite staleLoop_step, bool_decide_eq_false_2 by lia.
    repeat split; try done; try lia.
  - rewrite staleLoop_step, bool_decide_eq_true_2 by lia.
    destruct (lookup_lt_is_Some_2 infractions (Z.to_nat i)) as [t Ht].
    { unfold len in Hlim. lia. }
    unfold bind at 1, time_Now. unfold bind at 1.
    rewrite (index_lookup _ _ t) by done.
    unfold time.SecondsLt, time.Sub. case_bool_decide as Hfresh.
    + eexists i, _. split; [reflexivity|]. simpl.
      repeat split; try done; try lia.
      intros _. exists (tick w), t. by repeat split.
    + match goal with |- context [staleLoop _ _ (i + 1) ?w1] =>
        destruct (IH (i + 1) w1) as
          (r & w' & Hrun & Hst & Hn & Htr & Htk & Hr & Hle & Hstale & Hfr)
      end; [lia..|]. simpl in *.
      exists r, w'. split; [done|].
      repeat split; try done; try lia.
      * intros j Hj. destruct (decide (j = i)) as [->|Hne].
        -- exists (tick w), t. repeat split; [lia|done|]. unfold stale. lia.
        -- destruct (Hstale j) as (n & t' & Hn' & Ht' & Hs); [lia|].
           exists n, t'. repeat split; [lia|done..].
      * intros Hrl. destruct (Hfr Hrl) as (n & t' & Hn' & Ht' & Hf).
        exists n, t'. repeat split; [lia|done..].
Qed.

Lemma quiet_not_unban evs ip : Forall quiet evs → EvUnban ip ∉ evs.
Proof.
  intros Hq Hin. rewrite Forall_forall in Hq. by apply Hq in Hin.
Qed.

Lemma applyPolicy_spec key ip infractions i st w :
  ∃ st' w' evs,
    applyPolicy key ip infractions i st w = Done st' w'
    ∧ trace w' = trace w ++ evs
    ∧ tick w' = tick w
    ∧ (∀ ip', EvUnban ip' ∈ evs ↔ ip' = ip ∧ unbanDue (len infractions) i)
    ∧ (∀ ok, EvCmd (redis.Del key) ok ∈ evs ↔
             i = len infractions ∧ ok = negb (fails (ncmd w)))
    ∧ (∀ start ok, EvCmd (redis.LTrim key start) ok ∈ evs ↔
             i ≠ len infractions ∧ 0 < i ∧ start = i
             ∧ ok = negb (fails (ncmd w)))
    ∧ (∀ e, e ∈ evs → quiet e ∨ (∃ ip', e = EvUnban ip')
                     ∨ (∃ ok, e = EvCmd (redis.Del key) ok)
                     ∨ (∃ ok, e = EvCmd (redis.LTrim key i) ok))
    ∧ store w' = (if fails (ncmd w) then store w
                  else policyStore key (len infractions) i (store w)).
Proof.
  unfold applyPolicy, unban, policyStore, unbanDue.
  exec. split_cases.
  all: eexists _, _, _; split; [reflexivity|]; simpl.
  all: split; [repeat rewrite <- app_assoc; simpl; try reflexivity;
               by rewrite app_nil_r|].
  all: split; [done|].
  all: split_and!; try done.
  all: try (intros ev; rewrite list_elem_of_In; simpl; intros Hin;
            repeat (destruct Hin as [<-|Hin];
                    [first [ left; exact I
                           | right; left; eexists; reflexivity
                           | right; right; left; eexists; reflexivity
                           | right; right; right; eexists; reflexivity ]|]);
            by destruct Hin).
  all: try (intros ?; rewrite list_elem_of_In; simpl;
            intuition (try discriminate; try congruence; try lia)).
  all: intros ? ?; rewrite list_elem_of_In; simpl;
       intuition (try discriminate; try congruence; try lia).
Qed.

Lemma prefix_length p s :
  String.prefix p s = true → (String.length p <= String.length s)%nat.
Proof.
  revert s. induction p as [|c p IH]; intros [|c' s]; simpl; try done; try lia.
  destruct (Ascii.ascii_dec c c'); [|done]. intros Hp%IH. lia.
Qed.

Lemma keyToIp_spec key w :
  matchesPattern key = true →
  keyToIp key w
  = Done (ParseIP (string_drop (String.length keyPrefix) key)) w.
Proof.
  intros Hm%prefix_length. unfold keyToIp.
  by rewrite bool_decide_eq_false_2 by lia.
Qed.

Lemma limitAt_range now infractions :
  1 <= MaxRetry → 0 <= limitAt now infractions <= len infractions.
Proof.
  intros HM. unfold limitAt, activeBan.
  destruct (time.IsZero (endtimeOf infractions)) eqn:Hz; simpl;
    [unfold len; lia|].
  destruct (time.Before _ _); [|unfold len; lia].
  unfold endtimeOf in Hz. case_bool_decide as Hlt; [|unfold len in *; lia].
  unfold time.IsZero in Hz. by rewrite bool_decide_eq_true_2 in Hz.
Qed.

(** One visit of a key by the maintenance pass. *)
Lemma manageKey_spec key st w :
  1 <= MaxRetry → matchesPattern key = true →
  ∃ st' w' evs,
    manageKey key st w = Done st' w'
    ∧ trace w' = trace w ++ evs
    ∧ (tick w <= tick w')%nat
    ∧ ((store w' = store w ∧ Forall quiet evs
        ∧ (ParseIP (string_drop (String.length keyPrefix) key) = None
           ∨ fails (ncmd w) = true))
       ∨ (∃ ip i,
            ParseIP (string_drop (String.length keyPrefix) key) = Some ip
            ∧ fails (ncmd w) = false
            ∧ boundary (tick w)
                (infractionsOf (redis.lrange (store w) key))
                (limitAt (clock (tick w))
                   (infractionsOf (redis.lrange (store w) key))) i
            ∧ (∀ ip', EvUnban ip' ∈ evs ↔
                 ip' = ip
                 ∧ unbanDue (len (infractionsOf (redis.lrange (store w) key))) i)
            ∧ (∀ e, e ∈ evs →
                 quiet e ∨ (∃ ip', e = EvUnban ip')
                 ∨ ((∃ ok, e = EvCmd (redis.Del key) ok)
                    ∧ i = len (infractionsOf (redis.lrange (store w) key)))
                 ∨ ((∃ ok, e = EvCmd (redis.LTrim key i) ok)
                    ∧ 0 < i < len (infractionsOf (redis.lrange (store w) key))))
            ∧ store w'
              = (if fails (S (ncmd w)) then store w
                 else policyStore key
                        (len (infractionsOf (redis.lrange (store w) key))) i
                        (store w)))).
Proof.
  intros HM Hmatch. unfold manageKey.
  unfold bind at 1. rewrite keyToIp_spec by done.
  destruct (ParseIP _) as [ip|] eqn:Hip.
  2:{ eexists st, _, [_]. split; [reflexivity|]. simpl.
      split_and!; [done..|]. left. split_and!; [done| |by left].
      by repeat constructor. }
  unfold bind at 1. unfold LRange, issue.
  destruct (fails (ncmd w)) eqn:Hf; simpl.
  { eexists st, _, [_; _]. split; [reflexivity|]. simpl.
    split_and!; [by rewrite <- app_assoc|done|].
    left. split_and!; [done| |by right]. by repeat constructor. }
  set (infr := infractionsOf (redis.lrange (store w) key)).
  unfold bind at 1. rewrite listToInfractions_spec. fold infr.
  unfold bind at 1. rewrite bannedUntil_spec by (by left).
  unfold bind at 1.
  match goal with |- context [scanLimit ip infr _ ?w1] =>
    destruct (scanLimit_spec ip infr w1)
      as (w2 & evs2 & Hrun2 & Hst2 & Hn2 & Htk2 & Htr2 & Hq2)
  end.
  rewrite Hrun2. cbn [tick store ncmd trace] in *.
  pose proof (limitAt_range (clock (tick w)) infr HM) as Hlim.
  unfold bind at 1.
  destruct (staleLoop_spec infr (limitAt (clock (tick w)) infr)
              (Z.to_nat (limitAt (clock (tick w)) infr - 0))
              (proj2 Hlim) 0 w2)
    as (i & w3 & Hrun3 & Hst3 & Hn3 & Htr3 & Htk3 & Hi & Hle & Hstale & Hfresh);
    [lia..|].
  rewrite Hrun3.
  destruct (applyPolicy_spec key ip infr i st w3)
    as (st' & w' & evs4 & Hrun4 & Htr4 & Htk4 & Hunban & Hdel & Htrim & Hcls & Hst4).
  rewrite Hrun4.
  exists st', w', ([EvCmd (redis.LRange key) true]
                   ++ parseErrors (redis.lrange (store w) key) ++ evs2 ++ evs4).
  split; [done|].
  split; [by rewrite Htr4, Htr3, Htr2, <- !app_assoc|].
  split; [lia|].
  right. exists ip, i. split; [done|]. split; [done|].
  assert (Forall quiet ([EvCmd (redis.LRange key) true]
             ++ parseErrors (redis.lrange (store w) key) ++ evs2)) as Hq.
  { apply Forall_app. split; [by repeat constructor|].
    apply Forall_app. split; [apply parseErrors_quiet|done]. }
  rewrite !app_assoc. rewrite <- (app_assoc [_]).
  split_and!.
  - unfold boundary. split; [lia|]. split.
    + intros j Hj. destruct (Hstale j Hj) as (n & t & Hn & Ht & Hs).
      exists n, t. split_and!; [lia|done..].
    + intros Hl. destruct (Hfresh Hl) as (n & t & Hn & Ht & Hs).
      exists n, t. split_and!; [lia|done..].
  - intros ip'. rewrite elem_of_app, Hunban. split; [|tauto].
    intros [Hin|?]; [|done]. by apply quiet_not_unban in Hin.
  - intros e [Hin|Hin]%elem_of_app.
    + left. rewrite Forall_forall in Hq. by apply Hq.
    + destruct (Hcls e Hin) as [?|[?|[[ok ->]|[ok ->]]]]; [tauto..| |].
      * right; right; left. split; [by eexists|]. by apply Hdel in Hin as [? _].
      * right; right; right. split; [by eexists|].
        apply Htrim in Hin as (? & ? & _). lia.
  - rewrite Hst4, Hn3, Hn2, Hst3, Hst2. simpl. done.
Qed.
(** *** Lifting a property of the visits to the whole pass *)

Section Pass.

(** [I visited w]: an invariant of the worlds of a pass, indexed by the
    keys visited so far. *)
Variable I : list string → World → Prop.
Variable allowed : string → Prop.

Hypothesis I_now : ∀ vis s t n tr,
  I vis (mkWorld s t n tr) → I vis (mkWorld s (S t) n tr).
Hypothesis I_log : ∀ vis s t n tr l,
  I vis (mkWorld s t n tr) → I vis (mkWorld s t n (tr ++ [EvLog l])).
Hypothesis I_scan : ∀ vis s t n tr cursor count ok,
  I vis (mkWorld s t n tr) →
  I vis (mkWorld s t (S n) (tr ++ [EvCmd (redis.Scan cursor count) ok])).
Hypothesis I_key : ∀ vis key st w,
  allowed key → matchesPattern key = true → I vis w →
  ∃ st' w', manageKey key st w = Done st' w' ∧ I (vis ++ [key]) w'.

Lemma forKeys_visits keys :
  (∀ key, key ∈ keys → allowed key ∧ matchesPattern key = true) →
  ∀ vis st w,
    I vis w →
    ∃ st' w', forKeys keys st w = Done st' w' ∧ I (vis ++ keys) w'.
Proof.
  induction keys as [|key keys IH]; intros Hkeys vis st w HI; simpl.
  - exists st, w. by rewrite app_nil_r.
  - destruct (Hkeys key) as [Ha Hm]; [by left|].
    destruct (I_key vis key st w Ha Hm HI) as (st1 & w1 & Hrun1 & HI1).
    unfold bind. rewrite Hrun1.
    destruct (IH (fun k Hk => Hkeys k (list_elem_of_further _ _ _ Hk))
                 (vis ++ [key]) st1 w1 HI1) as (st' & w' & Hrun & HI').
    exists st', w'. split; [done|]. by rewrite <- app_assoc in HI'.
Qed.

Lemma filter_matches page key :
  key ∈ List.filter matchesPattern page →
  key ∈ page ∧ matchesPattern key = true.
Proof. rewrite !list_elem_of_In. apply List.filter_In. Qed.

Lemma scanPage_visits page next cursor count st vis w :
  (∀ key, key ∈ page → allowed key) →
  I vis w →
  ∃ st' c w' keys,
    scanPage page next cursor count st w = Done (st', c) w'
    ∧ I (vis ++ keys) w'
    ∧ ((fails (ncmd w) = false
        ∧ keys = List.filter matchesPattern page ∧ c = next)
       ∨ (fails (ncmd w) = true ∧ keys = [] ∧ c = 0)).
Proof.
  intros Hall HI. destruct w as [s t n tr]. unfold scanPage, Scan, issue.
  unfold bind at 1. simpl. destruct (fails n) eqn:Hf; simpl.
  - unfold bind at 1. simpl. unfold bind at 1. simpl.
    eexists _, _, _, []. split; [reflexivity|].
    split; [|by right]. rewrite app_nil_r. by apply I_log, I_scan.
  - unfold bind at 1. simpl. unfold bind at 1.
    match goal with |- context [forKeys ?ks st ?w1] =>
      destruct (forKeys_visits ks) with (vis := vis) (st := st) (w := w1)
        as (st' & w' & Hrun & HI')
    end.
    + intros key [Hin Hm]%filter_matches. split; [by apply Hall|done].
    + by apply I_scan.
    + rewrite Hrun. simpl. eexists _, _, _, _. split; [reflexivity|].
      split; [done|]. by left.
Qed.

Lemma scanLoop_visits pages :
  (∀ page key, page ∈ pages → key ∈ page → allowed key) →
  ∀ cursor count st vis w,
    0 <= cursor →
    I vis w →
    ∃ st' w' keys,
      scanLoop pages cursor count st w = Done st' w'
      ∧ I (vis ++ keys) w'
      ∧ ((∀ n, fails n = false) → keys = scannedKeys pages).
Proof.
  induction pages as [|page rest IH]; intros Hall cursor count st vis w Hc HI.
  - simpl. unfold bind.
    destruct (scanPage_visits [] 0 cursor count st vis w)
      as (st' & c & w' & keys & Hrun & HI' & Hcase); [by intros ? ?%elem_of_nil|done|].
    rewrite Hrun. exists st', w', keys. split; [done|]. split; [done|].
    intros Hok. destruct Hcase as [(_ & -> & _)|(Hf & _)]; [done|].
    by rewrite Hok in Hf.
  - assert (∀ key, key ∈ page → allowed key) as Hpage
      by (intros; eapply Hall; [by left|done]).
    destruct rest as [|page' rest'].
    + simpl. unfold bind.
      destruct (scanPage_visits page 0 cursor count st vis w Hpage HI)
        as (st' & c & w' & keys & Hrun & HI' & Hcase).
      rewrite Hrun. exists st', w', keys. split; [done|]. split; [done|].
      intros Hok. destruct Hcase as [(_ & -> & _)|(Hf & _)].
      * unfold scannedKeys. simpl. by rewrite app_nil_r.
      * by rewrite Hok in Hf.
    + cbn [scanLoop]. unfold bind at 1.
      destruct (scanPage_visits page (cursor + 1) cursor count st vis w Hpage HI)
        as (st1 & c & w1 & keys1 & Hrun1 & HI1 & Hcase).
      rewrite Hrun1. cbn [fst snd].
      destruct Hcase as [(Hf & -> & ->)|(Hf & -> & ->)].
      * rewrite bool_decide_eq_false_2 by lia.
        destruct (IH (fun p k Hp => Hall p k (list_elem_of_further _ _ _ Hp))
                    (cursor + 1)
                    (if bool_decide (count < 1000) then count * 2 else count)
                    st1 (vis ++ List.filter matchesPattern page) w1)
          as (st' & w' & keys & Hrun & HI' & Hkeys); [lia|done|].
        exists st', w', (List.filter matchesPattern page ++ keys).
        split; [done|]. split; [by rewrite app_assoc|].
        intros Hok. rewrite (Hkeys Hok). done.
      * rewrite bool_decide_eq_true_2 by done.
        exists st1, w1, []. split; [done|]. split; [done|].
        intros Hok. by rewrite Hok in Hf.
Qed.

Lemma manageState_visits pages w :
  (∀ page key, page ∈ pages → key ∈ page → allowed key) →
  I [] w →
  ∃ w' keys,
    manageState pages w = Done tt w'
    ∧ I keys w'
    ∧ ((∀ n, fails n = false) → keys = scannedKeys pages).
Proof.
  intros Hall HI. destruct w as [s t n tr]. unfold manageState.
  unfold bind at 1. unfold time_Now at 1. simpl.
  unfold bind at 1.
  match goal with |- context [scanLoop pages 0 100 noStats ?w1] =>
    destruct (scanLoop_visits pages Hall 0 100 noStats [] w1)
      as (st & w2 & keys & Hrun & HI2 & Hkeys)
  end; [done|by apply I_now|].
  rewrite Hrun. simpl in HI2. destruct w2 as [s2 t2 n2 tr2].
  unfold bind, time_Now, log, emit, ret; simpl.
  repeat case_bool_decide; simpl.
  all: eexists _, keys; split; [reflexivity|]; split; [|done].
  all: repeat apply I_log; by apply I_now.
Qed.

End Pass.

(** *** Passes that change nothing *)

(** A visit of a key whose first infraction is fresh at every reading of
    the clock changes nothing. *)
Lemma manageKey_fresh key st w :
  matchesPattern key = true →
  (∀ ip, ParseIP (string_drop (String.length keyPrefix) key) = Some ip →
         ∃ t rest, infractionsOf (redis.lrange (store w) key) = t :: rest
                   ∧ ∀ n, fresh (clock n) t) →
  ∃ st' w' evs,
    manageKey key st w = Done st' w'
    ∧ trace w' = trace w ++ evs
    ∧ store w' = store w
    ∧ Forall quiet evs.
Proof.
  intros Hmatch Hfresh. unfold manageKey.
  unfold bind at 1. rewrite keyToIp_spec by done.
  destruct (ParseIP _) as [ip|] eqn:Hip.
  2:{ eexists st, _, [_]. split; [reflexivity|]. simpl.
      split_and!; [done..|]. by repeat constructor. }
  destruct (Hfresh ip eq_refl) as (t & rest & Hinfr & Ht).
  unfold bind at 1. unfold LRange, issue.
  destruct (fails (ncmd w)) eqn:Hf; simpl.
  { eexists st, _, [_; _]. split; [reflexivity|]. simpl.
    split_and!; [by rewrite <- app_assoc|done|]. by repeat constructor. }
  unfold bind at 1. rewrite listToInfractions_spec, Hinfr.
  unfold bind at 1. rewrite bannedUntil_spec by (by right).
  unfold bind at 1.
  match goal with |- context [scanLimit ip _ _ ?w1] =>
    destruct (scanLimit_spec ip (t :: rest) w1)
      as (w2 & evs2 & Hrun2 & Hst2 & Hn2 & Htk2 & Htr2 & Hq2)
  end.
  rewrite Hrun2. cbn [tick store ncmd trace] in *.
  unfold bind at 1. rewrite staleLoop_step.
  assert (∃ w3, (if bool_decide (0 < limitAt (clock (tick w)) (t :: rest))
                 then now <~ time_Now;;
                      t0 <~ index (t :: rest) 0;;
                      (if time.SecondsLt (time.Sub now t0) FindTime
                       then ret 0
                       else staleLoop (t :: rest)
                              (limitAt (clock (tick w)) (t :: rest)) (0 + 1))
                 else ret 0) w2 = Done 0 w3
                ∧ store w3 = store w2 ∧ trace w3 = trace w2)
    as (w3 & -> & Hst3 & Htr3).
  { case_bool_decide.
    - unfold bind, time_Now, index; simpl.
      unfold time.SecondsLt, time.Sub.
      rewrite bool_decide_eq_true_2 by apply Ht. by eexists.
    - by exists w2. }
  unfold applyPolicy, len. cbn [length].
  rewrite bool_decide_eq_false_2 by lia.
  rewrite bool_decide_eq_false_2 by lia.
  eexists st, w3, _. split; [reflexivity|].
  split; [by rewrite Htr3, Htr2, <- !app_assoc|].
  split; [by rewrite Hst3, Hst2|].
  apply Forall_app. split; [by repeat constructor|].
  apply Forall_app. split; [apply parseErrors_quiet|done].
Qed.

(** C7, as amended.  If, for every key that the pass visits and that names
    an address, the log holds at least one timestamp that can be read, and
    every timestamp of the log is younger than [FindTime] at every reading
    of the clock, then the pass leaves the server as it is and issues no
    trim, no deletion and no call of [Unban], whichever commands fail.  The
    timestamps are in the range of [time.Unix] and the window in the range
    on which the comparison of the ages is exact. *)
Theorem manageState_leaves_fresh_logs pages w :
  exactWindow →
  (∀ page key ip,
     page ∈ pages → key ∈ page →
     ParseIP (string_drop (String.length keyPrefix) key) = Some ip →
     infractionsOf (redis.lrange (store w) key) ≠ []
     ∧ ∀ n t, t ∈ infractionsOf (redis.lrange (store w) key) →
              unwrapped t ∧ fresh (clock n) t) →
  ∃ w' evs,
    manageState pages w = Done tt w'
    ∧ trace w' = trace w ++ evs
    ∧ store w' = store w
    ∧ Forall quiet evs.
Proof.
  intros _ Hrange.
  assert (∀ page key ip,
            page ∈ pages → key ∈ page →
            ParseIP (string_drop (String.length keyPrefix) key) = Some ip →
            infractionsOf (redis.lrange (store w) key) ≠ []
            ∧ ∀ n t, t ∈ infractionsOf (redis.lrange (store w) key) →
                     fresh (clock n) t) as Hlogs.
  { intros page key ip Hp Hk Hip.
    destruct (Hrange page key ip Hp Hk Hip) as [Hne Hall].
    split; [exact Hne|]. intros n t Hin. by apply Hall. }
  clear Hrange.
  destruct (manageState_visits
              (fun _ w' => store w' = store w
                           ∧ ∃ evs, trace w' = trace w ++ evs ∧ Forall quiet evs)
              (fun key => ∀ ip,
                 ParseIP (string_drop (String.length keyPrefix) key) = Some ip →
                 infractionsOf (redis.lrange (store w) key) ≠ []
                 ∧ ∀ n t, t ∈ infractionsOf (redis.lrange (store w) key) →
                          fresh (clock n) t))
    with (pages := pages) (w := w) as (w' & keys & Hrun & [Hst (evs & Htr & Hq)] & _).
  - intros _ s t n tr [Hs (evs & Htr & Hq)]. simpl in *. split; [done|].
    by exists evs.
  - intros _ s t n tr l [Hs (evs & Htr & Hq)]. simpl in *. split; [done|].
    exists (evs ++ [EvLog l]). rewrite Htr, app_assoc. split; [done|].
    apply Forall_app. split; [done|]. by repeat constructor.
  - intros _ s t n tr cursor count ok [Hs (evs & Htr & Hq)]. simpl in *.
    split; [done|].
    exists (evs ++ [EvCmd (redis.Scan cursor count) ok]).
    rewrite Htr, app_assoc. split; [done|].
    apply Forall_app. split; [done|]. by repeat constructor.
  - intros _ key st w1 Hkey Hmatch [Hs (evs & Htr & Hq)].
    destruct (manageKey_fresh key st w1 Hmatch)
      as (st' & w' & evs' & Hrun & Htr' & Hst' & Hq').
    { intros ip Hip. rewrite Hs. destruct (Hkey ip Hip) as [Hne Hall].
      destruct (infractionsOf _) as [|t rest]; [done|].
      exists t, rest. split; [done|]. intros n. apply Hall. by left. }
    exists st', w'. split; [done|]. split; [congruence|].
    exists (evs ++ evs'). rewrite Htr', Htr, app_assoc. split; [done|].
    by apply Forall_app.
  - intros page key Hp Hk ip Hip. by eapply Hlogs.
  - split; [done|]. exists []. by rewrite app_nil_r.
  - by exists w', evs.
Qed.

(** *** What a visit does to the other keys *)

Lemma ltrim_lookup_ne key key' start (s : gmap string redis.Entry) :
  key ≠ key' → redis.ltrim key start s !! key' = s !! key'.
Proof.
  intros Hne. unfold redis.ltrim. destruct (s !! key); [|done].
  destruct (drop _ _); by rewrite ?lookup_delete_ne, ?lookup_insert_ne.
Qed.

Lemma ltrim_lookup_None key start (s : gmap string redis.Entry) :
  s !! key = None → redis.ltrim key start s = s.
Proof. intros Hnone. unfold redis.ltrim. by rewrite Hnone. Qed.

Lemma policyStore_lookup_ne key key' n i (s : gmap string redis.Entry) :
  key ≠ key' → policyStore key n i s !! key' = s !! key'.
Proof.
  intros Hne. unfold policyStore.
  case_bool_decide; [by apply lookup_delete_ne|].
  case_bool_decide; [by apply ltrim_lookup_ne|done].
Qed.

Lemma policyStore_lookup_None key n i (s : gmap string redis.Entry) :
  s !! key = None → policyStore key n i s !! key = None.
Proof.
  intros Hnone. unfold policyStore.
  case_bool_decide; [by apply lookup_delete_eq|].
  case_bool_decide; [by rewrite ltrim_lookup_None|done].
Qed.

(** A visit of [key] changes the server at [key] only, calls [Unban] for
    the address of [key] only and deletes no other key.  A key that is
    absent stays absent. *)
Lemma manageKey_frame key st w :
  1 <= MaxRetry → matchesPattern key = true →
  ∃ st' w' evs,
    manageKey key st w = Done st' w'
    ∧ trace w' = trace w ++ evs
    ∧ (∀ key', key ≠ key' → store w' !! key' = store w !! key')
    ∧ (∀ key', store w !! key' = None → store w' !! key' = None)
    ∧ (∀ ip, EvUnban ip ∈ evs →
             ParseIP (string_drop (String.length keyPrefix) key) = Some ip)
    ∧ (∀ key' ok, key ≠ key' → EvCmd (redis.Del key') ok ∉ evs).
Proof.
  intros HM Hmatch.
  destruct (manageKey_spec key st w HM Hmatch)
    as (st' & w' & evs & Hrun & Htr & _ & Hcase).
  exists st', w', evs. split; [done|]. split; [done|].
  destruct Hcase as [(Hst & Hq & _)|(ip & i & Hip & _ & _ & Hunban & Hcls & Hst)].
  - rewrite Hst. split_and!; try done.
    + intros ip Hin. by apply quiet_not_unban in Hin.
    + intros key' ok _ Hin. rewrite Forall_forall in Hq. by apply Hq in Hin.
  - split_and!.
    + intros key' Hne. rewrite Hst. destruct (fails _); [done|].
      by apply policyStore_lookup_ne.
    + intros key' Hnone. rewrite Hst. destruct (fails _); [done|].
      destruct (decide (key = key')) as [<-|Hne].
      * by apply policyStore_lookup_None.
      * by rewrite policyStore_lookup_ne.
    + intros ip' [-> _]%Hunban. done.
    + intros key' ok Hne Hin.
      destruct (Hcls _ Hin) as [Hq|[[? [=]]|[[[? [=]] _]|[[? [=]] _]]]];
        [done|congruence].
Qed.

(** *** A ban that has lapsed *)

Lemma activeBan_lapsed now infractions :
  endtimeOf infractions <= now → activeBan now infractions = false.
Proof.
  intros Hle. unfold activeBan, time.Before.
  rewrite bool_decide_eq_false_2 by lia. by rewrite andb_false_r.
Qed.

Lemma manageKey_lapsed key ip st w :
  1 <= MaxRetry → FindTime <= BanTime → (∀ n, fails n = false) →
  matchesPattern key = true →
  ParseIP (string_drop (String.length keyPrefix) key) = Some ip →
  MaxRetry <= len (infractionsOf (redis.lrange (store w) key)) →
  (∀ t, t ∈ infractionsOf (redis.lrange (store w) key) →
        t <= default 0 (last (infractionsOf (redis.lrange (store w) key)))) →
  (∀ n, endtimeOf (infractionsOf (redis.lrange (store w) key)) <= clock n) →
  ∃ st' w' evs,
    manageKey key st w = Done st' w'
    ∧ trace w' = trace w ++ evs
    ∧ EvUnban ip ∈ evs
    ∧ store w' !! key = None.
Proof.
  intros HM HFB Hok Hmatch Hip Hlen Hsorted Hlate.
  destruct (manageKey_spec key st w HM Hmatch)
    as (st' & w' & evs & Hrun & Htr & _ & Hcase).
  exists st', w', evs. split; [done|]. split; [done|].
  destruct Hcase as [(_ & _ & [Hno|Hf])|(ip' & i & Hip' & _ & Hb & Hunban & _ & Hst)];
    [congruence|by rewrite Hok in Hf|].
  assert (ip' = ip) as -> by congruence.
  set (infr := infractionsOf (redis.lrange (store w) key)) in *.
  unfold limitAt in Hb. rewrite activeBan_lapsed in Hb by apply Hlate.
  destruct Hb as (Hi & _ & Hfresh).
  assert (i = len infr) as ->.
  { destruct (decide (i < len infr)) as [Hlt|]; [|lia]. exfalso.
    destruct (Hfresh Hlt) as (n & t & _ & Ht & Hf).
    assert (t <= default 0 (last infr)) as Hle
      by (apply Hsorted; by eapply list_elem_of_lookup_2).
    specialize (Hlate n). unfold endtimeOf in Hlate.
    rewrite bool_decide_eq_false_2 in Hlate by lia.
    unfold fresh, time.Add, time.Second in *. nia. }
  split.
  - apply Hunban. split; [done|]. unfold unbanDue. lia.
  - rewrite Hst, Hok. unfold policyStore.
    rewrite bool_decide_eq_true_2 by done. apply lookup_delete_eq.
Qed.

(** C2, as amended.  For a log of at least [MaxRetry] timestamps,
    [bannedUntil] is the last timestamp plus [BanTime] seconds.  When
    [FindTime <= BanTime], no timestamp of the log is later than the last
    one, the server does not fail and every reading of the clock is at or
    after [bannedUntil], a pass that visits the key of the address calls
    [Unban] for the address and deletes the key. *)
Theorem manageState_unbans_lapsed pages w key ip :
  1 <= MaxRetry → FindTime <= BanTime → (∀ n, fails n = false) →
  key ∈ scannedKeys pages →
  ParseIP (string_drop (String.length keyPrefix) key) = Some ip →
  MaxRetry <= len (infractionsOf (redis.lrange (store w) key)) →
  (∀ t, t ∈ infractionsOf (redis.lrange (store w) key) →
        t <= default 0 (last (infractionsOf (redis.lrange (store w) key)))) →
  (∀ n, endtimeOf (infractionsOf (redis.lrange (store w) key)) <= clock n) →
  (∃ t, last (infractionsOf (redis.lrange (store w) key)) = Some t
        ∧ bannedUntil (infractionsOf (redis.lrange (store w) key)) w
          = Done (t + BanTime * time.Second) w)
  ∧ ∃ w' evs,
      manageState pages w = Done tt w'
      ∧ trace w' = trace w ++ evs
      ∧ EvUnban ip ∈ evs
      ∧ store w' !! key = None.
Proof.
  intros HM HFB Hok Hkey Hip Hlen Hsorted Hlate.
  set (infr := infractionsOf (redis.lrange (store w) key)) in *.
  split.
  { destruct (last infr) as [t|] eqn:Hlast.
    - exists t. split; [done|]. rewrite bannedUntil_spec by (by left).
      unfold endtimeOf. rewrite bool_decide_eq_false_2 by lia.
      by rewrite Hlast.
    - apply last_None in Hlast. rewrite Hlast in Hlen.
      unfold len in Hlen. simpl in Hlen. lia. }
  destruct (manageState_visits
              (fun vis w' =>
                 ∃ evs, trace w' = trace w ++ evs
                        ∧ (((key ∉ vis) ∧ store w' !! key = store w !! key)
                           ∨ (EvUnban ip ∈ evs ∧ store w' !! key = None)))
              (fun _ => True))
    with (pages := pages) (w := w) as (w' & keys & Hrun & (evs & Htr & Hcase) & Hkeys).
  - intros vis s t n tr (evs & Htr & Hc); simpl in *. by exists evs.
  - intros vis s t n tr l (evs & Htr & Hc); simpl in *.
    exists (evs ++ [EvLog l]). rewrite Htr, app_assoc. split; [done|].
    destruct Hc as [?|[? ?]]; [by left|right].
    split; [|done]. apply elem_of_app. by left.
  - intros vis s t n tr cursor count ok (evs & Htr & Hc); simpl in *.
    exists (evs ++ [EvCmd (redis.Scan cursor count) ok]).
    rewrite Htr, app_assoc. split; [done|].
    destruct Hc as [?|[? ?]]; [by left|right].
    split; [|done]. apply elem_of_app. by left.
  - intros vis key' st w1 _ Hmatch (evs & Htr & Hc).
    destruct Hc as [[Hnot Hsame]|[Hun Hnone]].
    + destruct (decide (key' = key)) as [->|Hne].
      * assert (redis.lrange (store w1) key = redis.lrange (store w) key) as Hl
          by (unfold redis.lrange; by rewrite Hsame).
        destruct (manageKey_lapsed key ip st w1)
          as (st' & w' & evs' & Hrun & Htr' & Hun & Hnone);
          [done..|by rewrite Hl|by rewrite Hl|by rewrite Hl|].
        exists st', w'. split; [done|]. exists (evs ++ evs').
        rewrite Htr', Htr, app_assoc. split; [done|]. right.
        split; [|done]. apply elem_of_app. by right.
      * destruct (manageKey_frame key' st w1 HM Hmatch)
          as (st' & w' & evs' & Hrun & Htr' & Hfr & _).
        exists st', w'. split; [done|]. exists (evs ++ evs').
        rewrite Htr', Htr, app_assoc. split; [done|]. left.
        rewrite Hfr by done. split; [|done].
        rewrite elem_of_app, list_elem_of_singleton. intros [?|?]; congruence.
    + destruct (manageKey_frame key' st w1 HM Hmatch)
        as (st' & w' & evs' & Hrun & Htr' & _ & Habs & _).
      exists st', w'. split; [done|]. exists (evs ++ evs').
      rewrite Htr', Htr, app_assoc. split; [done|]. right.
      split; [apply elem_of_app; by left|by apply Habs].
  - done.
  - exists []. rewrite app_nil_r. split; [done|]. left.
    split; [by intros ?%elem_of_nil|done].
  - exists w', evs. split; [done|]. split; [done|].
    destruct Hcase as [[Hnot _]|?]; [|done].
    rewrite (Hkeys Hok) in Hnot. done.
Qed.

(** *** A ban that is running *)

Lemma length_infractionsOf_le redisList :
  (length (infractionsOf redisList) <= length redisList)%nat.
Proof.
  unfold infractionsOf. induction redisList as [|s rest IH]; csimpl; [done|].
  destruct (strconv.ParseInt s); csimpl; lia.
Qed.

Lemma infractionsOf_drop (n : nat) redisList :
  len (infractionsOf redisList) - Z.of_nat n
  <= len (infractionsOf (drop n redisList)).
Proof.
  rewrite <- (take_drop n redisList) at 1. rewrite infractionsOf_app.
  unfold len. rewrite length_app.
  pose proof (length_infractionsOf_le (take n redisList)) as Hle.
  rewrite length_take in Hle. lia.
Qed.

Lemma endtimeOf_app l1 l2 :
  1 <= MaxRetry → MaxRetry <= len l2 → endtimeOf (l1 ++ l2) = endtimeOf l2.
Proof.
  intros HM Hlen. unfold endtimeOf, len in *. rewrite length_app.
  rewrite !bool_decide_eq_false_2 by lia. rewrite last_app.
  destruct (last l2) eqn:Hlast; [done|].
  apply last_None in Hlast. subst l2. simpl in Hlen. lia.
Qed.

Lemma activeBan_len now infractions :
  activeBan now infractions = true → MaxRetry <= len infractions.
Proof.
  unfold activeBan, endtimeOf. case_bool_decide as Hlt; [|lia].
  unfold time.IsZero. by rewrite bool_decide_eq_true_2.
Qed.

Lemma activeBan_running now infractions :
  time.zero <= now < endtimeOf infractions →
  activeBan now infractions = true.
Proof.
  intros Hnow. unfold activeBan, time.IsZero, time.Before.
  rewrite bool_decide_eq_false_2 by lia.
  by rewrite bool_decide_eq_true_2 by lia.
Qed.

(** A visit of a key whose ban is running calls no [Unban], does not delete
    the key, and drops at most the entries that precede the last [MaxRetry]
    timestamps. *)
Lemma manageKey_active key st w :
  1 <= MaxRetry → matchesPattern key = true →
  activeBan (clock (tick w)) (infractionsOf (redis.lrange (store w) key)) = true →
  ∃ st' w' evs (i : nat),
    manageKey key st w = Done st' w'
    ∧ trace w' = trace w ++ evs
    ∧ (∀ ip, EvUnban ip ∉ evs)
    ∧ (∀ ok, EvCmd (redis.Del key) ok ∉ evs)
    ∧ Z.of_nat i <= len (infractionsOf (redis.lrange (store w) key)) - MaxRetry
    ∧ redis.lrange (store w') key = drop i (redis.lrange (store w) key).
Proof.
  intros HM Hmatch Hactive.
  pose proof (activeBan_len _ _ Hactive) as Hlen.
  destruct (manageKey_spec key st w HM Hmatch)
    as (st' & w' & evs & Hrun & Htr & _ & Hcase).
  set (infr := infractionsOf (redis.lrange (store w) key)) in *.
  destruct Hcase as [(Hst & Hq & _)|(ip & i & Hip & _ & Hb & Hunban & Hcls & Hst)].
  - exists st', w', evs, 0%nat. split; [done|]. split; [done|].
    split_and!.
    + intros ip. by apply quiet_not_unban.
    + intros ok Hin. rewrite Forall_forall in Hq. by apply Hq in Hin.
    + lia.
    + by rewrite Hst.
  - unfold limitAt in Hb. rewrite Hactive in Hb. destruct Hb as (Hi & _).
    assert (∀ ip', EvUnban ip' ∉ evs) as Hno.
    { intros ip' [_ Hdue]%Hunban. unfold unbanDue in Hdue. lia. }
    exists st', w', evs, (if fails (S (ncmd w)) then 0%nat else Z.to_nat i).
    split; [done|]. split; [done|]. split; [done|].
    split_and!.
    + intros ok Hin.
      destruct (Hcls _ Hin) as [Hq|[[? [=]]|[[_ ?]|[[? [=]] _]]]]; [done|lia].
    + destruct (fails _); lia.
    + rewrite Hst. destruct (fails _); [done|].
      unfold policyStore. rewrite bool_decide_eq_false_2 by lia.
      case_bool_decide.
      * by apply lrange_ltrim_eq; lia.
      * by replace i with 0 by lia.
Qed.

(** C10, as amended.  Let the parsed log of an address hold at least
    [MaxRetry >= 1] timestamps, and let every reading of the clock be before
    the last timestamp plus [BanTime] seconds (and not before the zero time
    of Go).  Let the key of the address be the only key of the pass that
    names it.  Whatever fails on the server, a pass calls no [Unban] for
    the address, issues no deletion of its key, and leaves a suffix of its
    log that holds the last [MaxRetry] timestamps.  The timestamps are in
    the range of [time.Unix], and the end of the ban is computed without
    overflow. *)
Theorem manageState_keeps_running_ban pages w key ip :
  1 <= MaxRetry →
  MaxRetry <= len (infractionsOf (redis.lrange (store w) key)) →
  Forall unwrapped (infractionsOf (redis.lrange (store w) key)) →
  exactBan (endtimeOf (infractionsOf (redis.lrange (store w) key))) →
  (∀ n, time.zero <= clock n
        < endtimeOf (infractionsOf (redis.lrange (store w) key))) →
  (∀ page key', page ∈ pages → key' ∈ page →
     ParseIP (string_drop (String.length keyPrefix) key') = Some ip →
     key' = key) →
  ∃ w' evs,
    manageState pages w = Done tt w'
    ∧ trace w' = trace w ++ evs
    ∧ (EvUnban ip ∉ evs)
    ∧ (∀ ok, EvCmd (redis.Del key) ok ∉ evs)
    ∧ redis.lrange (store w') key `suffix_of` redis.lrange (store w) key
    ∧ drop (length (infractionsOf (redis.lrange (store w) key))
            - Z.to_nat MaxRetry)
           (infractionsOf (redis.lrange (store w) key))
      `suffix_of` infractionsOf (redis.lrange (store w') key).
Proof.
  intros HM Hlen _ _ Hclock Honly.
  set (raw := redis.lrange (store w) key) in *.
  destruct (manageState_visits
              (fun _ w' =>
                 ∃ evs pre,
                   trace w' = trace w ++ evs
                   ∧ (EvUnban ip ∉ evs)
                   ∧ (∀ ok, EvCmd (redis.Del key) ok ∉ evs)
                   ∧ raw = pre ++ redis.lrange (store w') key
                   ∧ MaxRetry <= len (infractionsOf (redis.lrange (store w') key)))
              (fun key' =>
                 ParseIP (string_drop (String.length keyPrefix) key') = Some ip →
                 key' = key))
    with (pages := pages) (w := w)
    as (w' & keys & Hrun & (evs & pre & Htr & Hun & Hdel & Hraw & Hkeep) & _).
  - intros _ s t n tr (evs & pre & Htr & ?); simpl in *. by exists evs, pre.
  - intros _ s t n tr l (evs & pre & Htr & Hun & Hdel & ?); simpl in *.
    exists (evs ++ [EvLog l]), pre. rewrite Htr, app_assoc.
    split_and!; try tauto.
    + rewrite elem_of_app, list_elem_of_singleton. intros [?|[=]]; done.
    + intros ok. rewrite elem_of_app, list_elem_of_singleton.
      intros [?|[=]]. by eapply Hdel.
  - intros _ s t n tr cursor count ok (evs & pre & Htr & Hun & Hdel & ?);
      simpl in *.
    exists (evs ++ [EvCmd (redis.Scan cursor count) ok]), pre.
    rewrite Htr, app_assoc. split_and!; try tauto.
    + rewrite elem_of_app, list_elem_of_singleton. intros [?|[=]]; done.
    + intros ok'. rewrite elem_of_app, list_elem_of_singleton.
      intros [?|[=]]. by eapply Hdel.
  - intros _ key' st w1 Hkey' Hmatch (evs & pre & Htr & Hun & Hdel & Hraw & Hkeep).
    destruct (decide (key' = key)) as [->|Hne].
    + destruct (manageKey_active key st w1 HM Hmatch)
        as (st' & w' & evs' & i & Hrun & Htr' & Hun' & Hdel' & Hi & Hst).
      { apply activeBan_running.
        rewrite <- (endtimeOf_app (infractionsOf pre)) by done.
        rewrite <- infractionsOf_app, <- Hraw. apply Hclock. }
      exists st', w'. split; [done|].
      exists (evs ++ evs'), (pre ++ take i (redis.lrange (store w1) key)).
      rewrite Htr', Htr, app_assoc. split_and!; try done.
      * rewrite elem_of_app. intros [?|?]; [done|by eapply Hun'].
      * intros ok. rewrite elem_of_app. intros [?|?];
          [by eapply Hdel|by eapply Hdel'].
      * by rewrite Hst, <- app_assoc, take_drop.
      * rewrite Hst.
        pose proof (infractionsOf_drop i (redis.lrange (store w1) key)). lia.
    + destruct (manageKey_frame key' st w1 HM Hmatch)
        as (st' & w' & evs' & Hrun & Htr' & Hfr & _ & Hun' & Hdel').
      assert (redis.lrange (store w') key = redis.lrange (store w1) key) as Hl
        by (unfold redis.lrange; by rewrite Hfr).
      exists st', w'. split; [done|].
      exists (evs ++ evs'), pre.
      rewrite Htr', Htr, app_assoc, Hl. split_and!; try done.
      * rewrite elem_of_app. intros [?|Hin]; [done|].
        apply Hun' in Hin. by apply Hkey' in Hin.
      * intros ok. rewrite elem_of_app. intros [?|?];
          [by eapply Hdel|by eapply Hdel'].
  - done.
  - exists [], []. rewrite app_nil_r. split_and!; try done.
    + by intros ?%elem_of_nil.
    + by intros ? ?%elem_of_nil.
  - exists w', evs. split; [done|]. split; [done|]. split; [done|].
    split; [done|]. split; [by exists pre|].
    rewrite Hraw, infractionsOf_app.
    set (Q := infractionsOf (redis.lrange (store w') key)) in *.
    rewrite drop_app_ge by (unfold len in Hkeep; rewrite length_app; lia).
    apply suffix_drop.
Qed.

(** *** The stale prefix of a log *)



(** *** The background loop *)

(** C3 (the code departs from the claim).  A value received on [quitChan],
    the one that [Close] sends, does not end the loop: the [break] leaves
    the [select] only.  When the timer expires next, [manageState] runs, as
    its SCAN command and its summary line in the trace show. *)
Theorem background_survives_quit w :
  ∃ w' evs ok,
    background [RecvQuit; TimerFired []] w = Done tt w'
    ∧ trace w' = trace w ++ evs
    ∧ EvCmd (redis.Scan 0 100) ok ∈ evs
    ∧ EvLog (InfoLog_evaluated 0 1) ∈ evs.
Proof.
  unfold background, manageState, scanLoop, scanPage, Scan, forKeys.
  exec. destruct (fails (ncmd w)); simpl.
  all: eexists _, _, _; split; [reflexivity|]; simpl.
  all: split; [repeat rewrite <- app_assoc; simpl; reflexivity|].
  all: split; apply list_elem_of_In; simpl; tauto.
Qed.

End Properties.

(** ** The claims on concrete configurations *)



(** Evaluation of a run on a concrete world: the final world is computed
    and given as the witness. *)
Ltac run_concrete :=
  lazymatch goal with
  | |- ∃ w', ?m = Done ?a w' ∧ _ =>
      let v := eval vm_compute in m in
      lazymatch v with
      | Done _ ?w => exists w; split; [reflexivity|]
      end
  end.

(** The same on the empty server, evaluated: the trace of a quit followed
    by an expiry of the timer. *)
Example background_quit_then_timer :
  ∃ w',
    @background ipv4.net scenarioConfig (steady 0)
      [RecvQuit; TimerFired []] (initial ∅) = Done tt w'
    ∧ trace w'
      = [EvCmd (redis.Scan 0 100) true; EvLog (InfoLog_evaluated 0 1)].
Proof. run_concrete. reflexivity. Qed.

(** C9 (the code departs from the claim).  With [MaxRetry = 5],
    [FindTime = 600] and the clock at 5100 s, the stored list
    ["x"; "100"; "5000"] has one stale timestamp.  The pass computes the
    boundary 1 on the parsed log and trims one entry of the stored list,
    which removes "x": the stale timestamp 100 survives.  On the list
    without the unparseable entry the pass removes "100". *)
Theorem manageState_trims_by_parsed_index :
  (∃ w',
     @manageState ipv4.net scenarioConfig (steady (time.Unix 5100))
       [["aws-fail2ban-10.0.0.1"%string]]
       (initial {[ "aws-fail2ban-10.0.0.1"%string
                   := redis.mkEntry ["x"; "100"; "5000"]%string None ]})
     = Done tt w'
     ∧ infractionsOf (redis.lrange (store w') "aws-fail2ban-10.0.0.1")
       = [time.Unix 100; time.Unix 5000])
  ∧ (∃ w',
       @manageState ipv4.net scenarioConfig (steady (time.Unix 5100))
         [["aws-fail2ban-10.0.0.1"%string]]
         (initial {[ "aws-fail2ban-10.0.0.1"%string
                     := redis.mkEntry ["100"; "5000"]%string None ]})
       = Done tt w'
       ∧ infractionsOf (redis.lrange (store w') "aws-fail2ban-10.0.0.1")
         = [time.Unix 5000]).
Proof. split; run_concrete; reflexivity. Qed.


(** C2, counterexample.  [MaxRetry = 1], [FindTime = 600], [BanTime = 10]:
    the log ["0"] is banned until 10 s.  A pass at 10 s that visits the key
    calls no [Unban] and keeps the key, because the infraction is younger
    than [FindTime]. *)
Lemma lapsed_ban_survives_short_BanTime :
  @bannedUntil ipv4.net {| MaxRetry := 1; FindTime := 600; BanTime := 10 |}
    [time.Unix 0] (initial ∅)
  = Done (time.Unix 0 + 10 * time.Second) (initial ∅)
  ∧ time.Unix 0 + 10 * time.Second <= time.Unix 10
  ∧ ∃ w',
      @manageState ipv4.net
        {| MaxRetry := 1; FindTime := 600; BanTime := 10 |}
        (steady (time.Unix 10))
        [["aws-fail2ban-10.0.0.1"%string]]
        (initial {[ "aws-fail2ban-10.0.0.1"%string
                    := redis.mkEntry ["0"%string] None ]})
      = Done tt w'
      ∧ redis.lrange (store w') "aws-fail2ban-10.0.0.1" = ["0"%string]
      ∧ trace w'
        = [EvCmd (redis.Scan 0 100) true;
           EvCmd (redis.LRange "aws-fail2ban-10.0.0.1") true;
           EvLog (InfoLog_evaluated 1 1)].
Proof.
  split; [reflexivity|]. split; [by vm_compute|].
  run_concrete. split; reflexivity.
Qed.

(** C5, counterexample.  [MaxRetry = 1] and a log of one entry: the append
    succeeds and replies 2, the trim of the threshold branch fails, and
    [AddInfraction] returns the error without an EXPIRE: the key has no
    time to live. *)
Lemma failed_trim_skips_expire :
  ∃ w',
    @AddInfraction ipv4.net
      {| MaxRetry := 1; FindTime := 600; BanTime := 3600 |}
      {| clock := fun _ => time.Unix 200;
         fails := fun n => Nat.eqb n 1 |}
      (10, 0, 0, 1)
      (initial {[ "aws-fail2ban-10.0.0.1"%string
                  := redis.mkEntry ["100"%string] None ]})
    = Done (Some (StoreError (redis.LTrim "aws-fail2ban-10.0.0.1" 1))) w'
    ∧ trace w'
      = [EvCmd (redis.RPush "aws-fail2ban-10.0.0.1" "200") true;
         EvLog (@DebugLog_infraction ipv4.net (10, 0, 0, 1) (time.Unix 200));
         EvLog (@InfoLog_banned ipv4.net (10, 0, 0, 1) 2);
         @EvBan ipv4.net (10, 0, 0, 1);
         EvCmd (redis.LTrim "aws-fail2ban-10.0.0.1" 1) false]
    ∧ redis.ttlOf (store w') "aws-fail2ban-10.0.0.1" = None.
Proof. run_concrete. split; reflexivity. Qed.


(** C7, counterexample.  The list under the key holds no timestamp that
    can be read: no entry of the log is [FindTime] old.  The pass deletes
    the key. *)
Lemma fresh_pass_deletes_unreadable_log :
  infractionsOf ["x"%string] = []
  ∧ ∃ w',
      @manageState ipv4.net scenarioConfig (steady (time.Unix 1200))
        [["aws-fail2ban-10.0.0.1"%string]]
        (initial {[ "aws-fail2ban-10.0.0.1"%string
                    := redis.mkEntry ["x"%string] None ]})
      = Done tt w'
      ∧ trace w'
        = [EvCmd (redis.Scan 0 100) true;
           EvCmd (redis.LRange "aws-fail2ban-10.0.0.1") true;
           EvLog (ErrorLog_parse_time "x");
           EvCmd (redis.Del "aws-fail2ban-10.0.0.1") true;
           EvLog (InfoLog_evaluated 1 1);
           EvLog (InfoLog_ips_deleted 1)]
      ∧ store w' !! "aws-fail2ban-10.0.0.1"%string = None.
Proof. split; [reflexivity|]. run_concrete. split; reflexivity. Qed.

(** C10, counterexample.  [MaxRetry = 5], [BanTime = 3600], the clock at
    5000 s.  The log of 10.0.0.1 holds five infractions, the last at
    2400 s: the address is banned until 6000 s.  A second key names the
    same address in its IPv4-mapped form; its five infractions ended at
    500 s.  The pass leaves the log of the address alone, and calls
    [Unban] for the address on the visit of the second key. *)
Lemma alias_key_unbans_banned_address :
  ∃ w',
    @manageState ip46.net scenarioConfig (steady (time.Unix 5000))
      [["aws-fail2ban-10.0.0.1"%string; "aws-fail2ban-::ffff:10.0.0.1"%string]]
      (@initial ip46.net
         (<[ "aws-fail2ban-10.0.0.1"%string
             := redis.mkEntry ["2000"; "2100"; "2200"; "2300"; "2400"]%string
                              None ]>
            {[ "aws-fail2ban-::ffff:10.0.0.1"%string
               := redis.mkEntry ["100"; "200"; "300"; "400"; "500"]%string
                                None ]}))
    = Done tt w'
    ∧ trace w'
      = [EvCmd (redis.Scan 0 100) true;
         EvCmd (redis.LRange "aws-fail2ban-10.0.0.1") true;
         EvLog (@DebugLog_banned_until ip46.net (10, 0, 0, 1)
                  (time.Unix 6000));
         EvCmd (redis.LRange "aws-fail2ban-::ffff:10.0.0.1") true;
         EvLog (@InfoLog_unbanned ip46.net (10, 0, 0, 1));
         @EvUnban ip46.net (10, 0, 0, 1);
         EvCmd (redis.Del "aws-fail2ban-::ffff:10.0.0.1") true;
         EvLog (InfoLog_evaluated 2 1);
         EvLog (InfoLog_ips_unbanned 1);
         EvLog (InfoLog_ips_deleted 1)]
    ∧ redis.lrange (store w') "aws-fail2ban-10.0.0.1"
      = ["2000"; "2100"; "2200"; "2300"; "2400"]%string.
Proof. run_concrete. split; reflexivity. Qed.

(** ** The theorems at concrete inputs *)


(** A sixth report, at 600 s, of an address whose log holds five entries,
    [MaxRetry = 5]: the append replies 6 and the log is cut down. *)
Lemma AddInfraction_caps_log_witness :
  ∃ w',
    @AddInfraction ipv4.net scenarioConfig (steady (time.Unix 600))
      (10, 0, 0, 1)
      (initial {[ "aws-fail2ban-10.0.0.1"%string
                  := redis.mkEntry ["100"; "200"; "300"; "400"; "500"]%string
                                   None ]})
    = Done None w'
    ∧ redis.lrange (store w') "aws-fail2ban-10.0.0.1"
      = ["200"; "300"; "400"; "500"; "600"]%string.
Proof.
  destruct (@AddInfraction_caps_log ipv4.net scenarioConfig
              (steady (time.Unix 600)) (10, 0, 0, 1)
              (initial {[ "aws-fail2ban-10.0.0.1"%string
                          := redis.mkEntry
                               ["100"; "200"; "300"; "400"; "500"]%string
                               None ]}))
    as (r & w' & evs & Hrun & _ & Hnil & _ & Hcap); [simpl; lia|].
  rewrite (Hnil (fun _ => eq_refl)) in Hrun, Hcap.
  exists w'. split; [exact Hrun|].
  destruct (Hcap eq_refl) as [_ Hl].
  exact (Hl eq_refl).
Defined.

(** The resynchronisation of one member without a log, run twice. *)
Lemma resync_idempotent_witness :
  ∃ w1 w2,
    @resync ipv4.net scenarioConfig (steady (time.Unix 100))
      [(10, 0, 0, 1)] (initial ∅) = Done tt w1
    ∧ @resync ipv4.net scenarioConfig (steady (time.Unix 100))
        [(10, 0, 0, 1)] w1 = Done tt w2
    ∧ store w2 = store w1.
Proof.
  destruct (@resync_idempotent ipv4.net scenarioConfig
              (steady (time.Unix 100)) [(10, 0, 0, 1)] (initial ∅))
    as (w1 & evs1 & w2 & evs2 & H1 & _ & H2 & _ & _ & _ & Hst & _);
    [simpl; lia | intros n; reflexivity |].
  exists w1, w2. split; [exact H1|]. split; [exact H2|exact Hst].
Defined.

(** A pass at 1200 s over a log of two infractions, at 1000 s and 1100 s,
    [FindTime = 600]. *)
Lemma manageState_leaves_fresh_logs_witness :
  ∃ w' evs,
    @manageState ipv4.net scenarioConfig (steady (time.Unix 1200))
      [["aws-fail2ban-10.0.0.1"%string]]
      (initial {[ "aws-fail2ban-10.0.0.1"%string
                  := redis.mkEntry ["1000"; "1100"]%string None ]})
    = Done tt w'
    ∧ trace w'
      = trace (@initial ipv4.net
                 {[ "aws-fail2ban-10.0.0.1"%string
                    := redis.mkEntry ["1000"; "1100"]%string None ]}) ++ evs
    ∧ store w'
      = store (@initial ipv4.net
                 {[ "aws-fail2ban-10.0.0.1"%string
                    := redis.mkEntry ["1000"; "1100"]%string None ]})
    ∧ Forall quiet evs.
Proof.
  apply (@manageState_leaves_fresh_logs ipv4.net scenarioConfig
           (steady (time.Unix 1200))); [split; by vm_compute|].
  intros page key ip Hpage%list_elem_of_singleton Hkey _. subst page.
  apply list_elem_of_singleton in Hkey. subst key.
  change (infractionsOf (redis.lrange (store _) _))
    with [time.Unix 1000; time.Unix 1100].
  split; [discriminate|].
  intros n t Hin. apply list_elem_of_In in Hin.
  destruct Hin as [<-|[<-|[]]]; (split; [by vm_compute|reflexivity]).
Defined.

(** Five infractions between 100 s and 500 s, [BanTime = 3600]: a pass at
    4200 s, after the end of the ban at 4100 s. *)
Lemma manageState_unbans_lapsed_witness :
  ∃ w' evs,
    @manageState ipv4.net scenarioConfig (steady (time.Unix 4200))
      [["aws-fail2ban-10.0.0.1"%string]]
      (initial {[ "aws-fail2ban-10.0.0.1"%string
                  := redis.mkEntry ["100"; "200"; "300"; "400"; "500"]%string
                                   None ]})
    = Done tt w'
    ∧ trace w'
      = trace (@initial ipv4.net
                 {[ "aws-fail2ban-10.0.0.1"%string
                    := redis.mkEntry ["100"; "200"; "300"; "400"; "500"]%string
                                     None ]}) ++ evs
    ∧ @EvUnban ipv4.net (10, 0, 0, 1) ∈ evs
    ∧ store w' !! "aws-fail2ban-10.0.0.1"%string = None.
Proof.
  eapply proj2,
    (@manageState_unbans_lapsed ipv4.net scenarioConfig
       (steady (time.Unix 4200))).
  - simpl; lia.
  - simpl; lia.
  - intros n; reflexivity.
  - by left.
  - reflexivity.
  - change (infractionsOf (redis.lrange (store _) _))
      with [time.Unix 100; time.Unix 200; time.Unix 300; time.Unix 400;
            time.Unix 500].
    by vm_compute.
  - change (infractionsOf (redis.lrange (store _) _))
      with [time.Unix 100; time.Unix 200; time.Unix 300; time.Unix 400;
            time.Unix 500].
    intros t Hin. apply list_elem_of_In in Hin.
    destruct Hin as [<-|[<-|[<-|[<-|[<-|[]]]]]]; by vm_compute.
  - intros n.
    change (infractionsOf (redis.lrange (store _) _))
      with [time.Unix 100; time.Unix 200; time.Unix 300; time.Unix 400;
            time.Unix 500].
    by vm_compute.
Defined.

(** The same five infractions: a pass at 600 s, while the ban runs. *)
Lemma manageState_keeps_running_ban_witness :
  ∃ w' evs,
    @manageState ipv4.net scenarioConfig (steady (time.Unix 600))
      [["aws-fail2ban-10.0.0.1"%string]]
      (initial {[ "aws-fail2ban-10.0.0.1"%string
                  := redis.mkEntry ["100"; "200"; "300"; "400"; "500"]%string
                                   None ]})
    = Done tt w'
    ∧ trace w'
      = trace (@initial ipv4.net
                 {[ "aws-fail2ban-10.0.0.1"%string
                    := redis.mkEntry ["100"; "200"; "300"; "400"; "500"]%string
                                     None ]}) ++ evs
    ∧ (@EvUnban ipv4.net (10, 0, 0, 1) ∉ evs)
    ∧ (∀ ok, EvCmd (redis.Del "aws-fail2ban-10.0.0.1") ok ∉ evs).
Proof.
  destruct (@manageState_keeps_running_ban ipv4.net scenarioConfig
              (steady (time.Unix 600))
              [["aws-fail2ban-10.0.0.1"%string]]
              (initial {[ "aws-fail2ban-10.0.0.1"%string
                          := redis.mkEntry
                               ["100"; "200"; "300"; "400"; "500"]%string
                               None ]})
              "aws-fail2ban-10.0.0.1"%string (10, 0, 0, 1))
    as (w' & evs & Hrun & Htr & Hun & Hdel & _).
  - simpl; lia.
  - change (infractionsOf (redis.lrange (store _) _))
      with [time.Unix 100; time.Unix 200; time.Unix 300; time.Unix 400;
            time.Unix 500].
    by vm_compute.
  - change (infractionsOf (redis.lrange (store _) _))
      with [time.Unix 100; time.Unix 200; time.Unix 300; time.Unix 400;
            time.Unix 500].
    repeat constructor; by vm_compute.
  - change (infractionsOf (redis.lrange (store _) _))
      with [time.Unix 100; time.Unix 200; time.Unix 300; time.Unix 400;
            time.Unix 500].
    split; [split|]; by vm_compute.
  - intros n.
    change (infractionsOf (redis.lrange (store _) _))
      with [time.Unix 100; time.Unix 200; time.Unix 300; time.Unix 400;
            time.Unix 500].
    split; by vm_compute.
  - intros page key' Hpage%list_elem_of_singleton Hkey _. subst page.
    by apply list_elem_of_singleton in Hkey.
  - exists w', evs. split; [exact Hrun|]. split; [exact Htr|].
    split; [exact Hun|exact Hdel].
Defined.


(** * Further properties of the code *)

(** ** Reports *)

Section Reports.

Context `{Net} `{Config} `{Environment}.

Ltac exec :=
  unfold AddInfraction, Ban, Unban, RPush, LTrim, Expire, Del, LRange, LLen,
    issue, log, logIfErr, emit, time_Now, bind, ret, panic; simpl.

Ltac split_cases :=
  repeat match goal with
    | |- context [fails ?n] => destruct (fails n) eqn:?; simpl
    | |- context [bool_decide ?P] => destruct (bool_decide_reflect P); simpl
    end.

Ltac in_list := rewrite list_elem_of_In; simpl.

Lemma expire_lookup_ne key key' secs (s : gmap string redis.Entry) :
  key ≠ key' → redis.expire key secs s !! key' = s !! key'.
Proof.
  intros Hne. unfold redis.expire. destruct (s !! key); [|done].
  case_bool_decide; by rewrite ?lookup_delete_ne, ?lookup_insert_ne.
Qed.

(** X1.  [AddInfraction] returns nil exactly when none of the commands that it
    issued failed; the error that it returns is the error of the command
    that it issued last. *)
Theorem AddInfraction_error_iff ip w :
  ∃ r w' evs,
    AddInfraction ip w = Done r w'
    ∧ trace w' = trace w ++ evs
    ∧ (r = None ↔ Forall (fun e => ¬ failed e) evs)
    ∧ (∀ err, r = Some err →
         ∃ c, err = StoreError c ∧ last evs = Some (EvCmd c false)).
Proof.
  exec. split_cases.
  all: eexists _, _, _; split; [reflexivity|]; simpl.
  all: split; [repeat rewrite <- app_assoc; simpl; reflexivity|].
  all: split;
    [split;
     [first [done|intros _;
       repeat (apply Forall_cons; split; [simpl; tauto|]); apply Forall_nil]
     |first [done|intros Hall; exfalso; rewrite Forall_forall in Hall;
       eapply Hall; [in_list; eauto 10|exact I]]]|].
  all: try exact I.
  all: intros err Herr; try discriminate; injection Herr as <-.
  all: eexists; split; reflexivity.
Qed.

(** X2.  [AddInfraction] calls [Ban], for the reported address only, exactly
    when the append succeeds and the log then holds at least [MaxRetry]
    entries; a trim or a refresh that fails afterwards does not undo the
    call. *)
Theorem AddInfraction_bans_iff ip w :
  ∃ r w' evs,
    AddInfraction ip w = Done r w'
    ∧ trace w' = trace w ++ evs
    ∧ ∀ ip', EvBan ip' ∈ evs ↔
             ip' = ip ∧ fails (ncmd w) = false
             ∧ MaxRetry <= redis.llen (store w) (ipToKey ip) + 1.
Proof.
  unfold redis.llen. exec. split_cases.
  all: eexists _, _, _; split; [reflexivity|]; simpl.
  all: split; [repeat rewrite <- app_assoc; simpl; reflexivity|].
  all: intros ip'; in_list; rewrite ?length_app in *; simpl in *.
  all: intuition (try discriminate; try congruence; try lia).
Qed.

(** X3.  [AddInfraction] touches the key of the reported address only,
    whichever commands fail: its events are lines of the log, the call of
    [Ban] for that address, and RPUSH, LTRIM and EXPIRE on that key; it
    never calls [Unban] and issues no DEL; every other key of the server is
    left as it is. *)
Theorem AddInfraction_frame ip w :
  ∃ r w' evs,
    AddInfraction ip w = Done r w'
    ∧ trace w' = trace w ++ evs
    ∧ Forall (reportEvent ip) evs
    ∧ (∀ key, ipToKey ip ≠ key → store w' !! key = store w !! key).
Proof.
  exec. split_cases.
  all: eexists _, _, _; split; [reflexivity|]; simpl.
  all: split; [repeat rewrite <- app_assoc; simpl; reflexivity|].
  all: split; [repeat (apply Forall_cons; split; [by simpl|]);
               by apply Forall_nil|].
  all: intros key Hne;
    rewrite ?expire_lookup_ne, ?ltrim_lookup_ne, ?lookup_insert_ne by done;
    done.
Qed.

Lemma pushesOn_cons key e (evs : list Event) :
  pushesOn key (e :: evs)
  = ((if isPushOn key e then 1 else 0) + pushesOn key evs)%nat.
Proof. unfold pushesOn. cbn [List.filter]. by destruct (isPushOn key e). Qed.

Lemma AddInfraction_one_push ip w :
  ∃ r w' evs,
    AddInfraction ip w = Done r w'
    ∧ trace w' = trace w ++ evs
    ∧ pushesOn (ipToKey ip) evs = 1%nat.
Proof.
  exec. split_cases.
  all: eexists _, _, _; split; [reflexivity|]; simpl.
  all: split; [repeat rewrite <- app_assoc; simpl; reflexivity|].
  all: rewrite !pushesOn_cons; cbn [isPushOn];
       rewrite bool_decide_eq_true_2 by done; reflexivity.
Qed.

(** X4.  The loop of the resynchronisation for one member makes
    [max 0 (MaxRetry - i)] attempts to append, whether they succeed or not:
    a failed [AddInfraction] is logged and counted, not repeated. *)
Theorem topUp_attempts ip i w :
  ∃ w' evs,
    topUp ip i w = Done tt w'
    ∧ trace w' = trace w ++ evs
    ∧ pushesOn (ipToKey ip) evs = Z.to_nat (Z.max 0 (MaxRetry - i)).
Proof.
  remember (Z.to_nat (MaxRetry - i)) as m eqn:Hm.
  revert i w Hm. induction m as [|m IH]; intros i w Hm.
  - exists w, []. rewrite topUp_step, bool_decide_eq_false_2 by lia.
    split; [done|]. split; [by rewrite app_nil_r|].
    unfold pushesOn. simpl. lia.
  - rewrite topUp_step, bool_decide_eq_true_2 by lia.
    destruct (AddInfraction_one_push ip w)
      as (r & w1 & evs1 & Hrun1 & Htr1 & Hcnt1).
    unfold bind at 1. rewrite Hrun1. unfold bind at 1.
    assert (∃ w2 evs2, logIfErr r w1 = Done tt w2
                       ∧ trace w2 = trace w1 ++ evs2
                       ∧ pushesOn (ipToKey ip) evs2 = 0%nat)
      as (w2 & evs2 & -> & Htr2 & Hcnt2).
    { destruct r as [e|]; simpl.
      - eexists _, [_]. by split_and!.
      - exists w1, []. rewrite app_nil_r. by split_and!. }
    destruct (IH (i + 1) w2) as (w' & evs & Hrun & Htr & Hcnt); [lia|].
    exists w', (evs1 ++ evs2 ++ evs). split; [done|].
    split; [by rewrite Htr, Htr2, Htr1, <- !app_assoc|].
    rewrite !pushesOn_app, Hcnt1, Hcnt2, Hcnt. lia.
Qed.

End Reports.

(** ** Timestamps: from [AddInfraction] to [listToInfractions] *)

Ltac eval_digit :=
  match goal with
  | |- context [strconv.digit ?c] =>
      let v := eval vm_compute in (strconv.digit c) in
      change (strconv.digit c) with v; cbv iota
  end.

Lemma digits_of_uint_acc (d : Decimal.uint) (acc : positive) :
  strconv.digits (NilEmpty.string_of_uint d) (Z.pos acc)
  = Some (Z.pos (Pos.of_uint_acc d acc)).
Proof.
  revert acc. induction d; intros acc; cbn [NilEmpty.string_of_uint]; [done|..].
  all: cbn [strconv.digits]; eval_digit.
  all: cbn [Pos.of_uint_acc]; rewrite <- IHd; f_equal; lia.
Qed.

Lemma digits_of_uint (d : Decimal.uint) :
  strconv.digits (NilEmpty.string_of_uint d) 0
  = Some (Z.of_N (Pos.of_uint d)).
Proof.
  induction d; cbn [NilEmpty.string_of_uint]; [done|..].
  all: cbn [strconv.digits]; eval_digit.
  all: first [exact IHd | apply digits_of_uint_acc].
Qed.

Lemma unsigned_to_uint (p : positive) :
  strconv.unsigned (NilEmpty.string_of_uint (Pos.to_uint p)) = Some (Z.pos p).
Proof.
  pose proof (digits_of_uint (Pos.to_uint p)) as Hd.
  rewrite DecimalPos.Unsigned.of_to in Hd.
  pose proof (DecimalPos.Unsigned.to_uint_nonnil p) as Hnil.
  unfold strconv.unsigned. by destruct (Pos.to_uint p).
Qed.

Lemma ParseInt_FormatInt (v : Z) :
  - 2 ^ 63 <= v < 2 ^ 63 → strconv.ParseInt (strconv.FormatInt v) = Some v.
Proof.
  intros Hv. unfold strconv.FormatInt.
  assert (strconv.inInt64 v = Some v) as Hin.
  { unfold strconv.inInt64.
    destruct (Z.leb_spec (- 2 ^ 63) v); [|lia].
    destruct (Z.ltb_spec v (2 ^ 63)); [done|lia]. }
  destruct v as [|p|p]; [done|..]; cbn [Z.to_int NilZero.string_of_int].
  - pose proof (unsigned_to_uint p) as Hu.
    pose proof (DecimalPos.Unsigned.to_uint_nonnil p) as Hnil.
    unfold NilZero.string_of_uint.
    destruct (Pos.to_uint p) eqn:Hd; [done|..].
    all: cbn [NilEmpty.string_of_uint] in *.
    all: unfold strconv.ParseInt; rewrite Hu; exact Hin.
  - pose proof (unsigned_to_uint p) as Hu.
    pose proof (DecimalPos.Unsigned.to_uint_nonnil p) as Hnil.
    unfold NilZero.string_of_uint.
    destruct (Pos.to_uint p) eqn:Hd; [done|..].
    all: unfold strconv.ParseInt; rewrite Hu; exact Hin.
Qed.

Section Timestamps.

Context `{Net} `{Config} `{Environment}.

Lemma infractionsOf_FormatInt (sec : Z) :
  - 2 ^ 63 <= sec < 2 ^ 63 →
  infractionsOf [strconv.FormatInt sec] = [time.Unix sec]
  ∧ parseErrors [strconv.FormatInt sec] = [].
Proof.
  intros Hsec. unfold infractionsOf, parseErrors. csimpl.
  by rewrite (ParseInt_FormatInt sec Hsec).
Qed.

Lemma parseErrors_app l1 l2 :
  parseErrors (l1 ++ l2) = parseErrors l1 ++ parseErrors l2.
Proof. apply omap_app. Qed.

Lemma lrange_after_report ip w w' :
  1 <= MaxRetry → 0 < BanTime →
  AddInfraction ip w = Done None w' →
  redis.lrange (store w') (ipToKey ip)
  = drop (length (redis.lrange (store w) (ipToKey ip)) + 1 - Z.to_nat MaxRetry)
         (redis.lrange (store w) (ipToKey ip))
    ++ [strconv.FormatInt (time.ToUnix (clock (tick w)))].
Proof.
  intros HM HB Hrun. apply AddInfraction_nil_store in Hrun. rewrite Hrun.
  rewrite lrange_pushed_eq by lia. rewrite length_app. cbn [length].
  rewrite drop_app_le by lia. done.
Qed.

(** X5.  The timestamp that a successful [AddInfraction] stores is read back by
    [listToInfractions]: the parsed log of the address ends with the time
    of the report rounded down to the second, the entries before it are
    the parsed entries of the part of the old log that was kept, and the
    new entry adds no parse error. *)
Theorem AddInfraction_timestamp_read_back ip w w' :
  1 <= MaxRetry → 0 < BanTime →
  - 2 ^ 63 <= time.ToUnix (clock (tick w)) < 2 ^ 63 →
  AddInfraction ip w = Done None w' →
  let old := redis.lrange (store w) (ipToKey ip) in
  let kept := drop (length old + 1 - Z.to_nat MaxRetry) old in
  let t := time.Unix (time.ToUnix (clock (tick w))) in
  infractionsOf (redis.lrange (store w') (ipToKey ip)) = infractionsOf kept ++ [t]
  ∧ parseErrors (redis.lrange (store w') (ipToKey ip)) = parseErrors kept
  ∧ t <= clock (tick w) < t + time.Second.
Proof.
  intros HM HB Hsec Hrun old kept t.
  rewrite (lrange_after_report ip w w' HM HB Hrun).
  destruct (infractionsOf_FormatInt _ Hsec) as [Hi He].
  rewrite infractionsOf_app, parseErrors_app, Hi, He, app_nil_r.
  split; [done|]. split; [done|].
  unfold t, time.Unix, time.ToUnix, time.Second.
  pose proof (Z.mod_pos_bound (clock (tick w)) 1000000000) as Hm.
  pose proof (Z.div_mod (clock (tick w)) 1000000000) as Hd. lia.
Qed.

Lemma parse_partition redisList :
  (length (infractionsOf redisList) + length (parseErrors redisList)
   = length redisList)%nat.
Proof.
  unfold infractionsOf, parseErrors.
  induction redisList as [|s rest IH]; csimpl; [done|].
  destruct (strconv.ParseInt s); csimpl; lia.
Qed.

Lemma parseErrors_drop_nil (n : nat) redisList :
  parseErrors redisList = [] → parseErrors (drop n redisList) = [].
Proof.
  rewrite <- (take_drop n redisList) at 1. rewrite parseErrors_app.
  by intros [_ ?]%app_eq_nil.
Qed.

Lemma AddInfraction_nil_ban ip w w' :
  AddInfraction ip w = Done None w' →
  ∃ evs, trace w' = trace w ++ evs
         ∧ (EvBan ip ∈ evs ↔ MaxRetry <= redis.llen (store w) (ipToKey ip) + 1).
Proof.
  unfold redis.llen.
  unfold AddInfraction, Ban, Unban, RPush, LTrim, Expire, issue, log, emit,
    time_Now, bind, ret; simpl.
  repeat match goal with
    | |- context [fails ?n] => destruct (fails n) eqn:?; simpl
    | |- context [bool_decide ?P] => destruct (bool_decide_reflect P); simpl
    end.
  all: intros [= <-]; simpl.
  all: eexists; split; [repeat rewrite <- app_assoc; simpl; reflexivity|].
  all: rewrite list_elem_of_In; rewrite ?length_app in *; simpl in *.
  all: intuition (try discriminate; try congruence; try lia).
Qed.

(** X6.  [AddInfraction] and the pass agree on the ban.  On a log that the pass
    reads without a parse error, a successful report leaves a log of the
    same kind; it calls [Ban] exactly when [bannedUntil] then returns an
    end of the ban, which is [BanTime] seconds after the second of the
    report; below the threshold [bannedUntil] returns the zero time. *)
Theorem AddInfraction_sets_ban_end ip w w' :
  1 <= MaxRetry → 0 < BanTime →
  - 2 ^ 63 <= time.ToUnix (clock (tick w)) < 2 ^ 63 →
  parseErrors (redis.lrange (store w) (ipToKey ip)) = [] →
  AddInfraction ip w = Done None w' →
  parseErrors (redis.lrange (store w') (ipToKey ip)) = []
  ∧ ∃ evs,
      trace w' = trace w ++ evs
      ∧ (EvBan ip ∈ evs →
         ∀ w0,
           bannedUntil (infractionsOf (redis.lrange (store w') (ipToKey ip))) w0
           = Done (time.Add (time.Unix (time.ToUnix (clock (tick w))))
                            (BanTime * time.Second)) w0)
      ∧ (EvBan ip ∉ evs →
         ∀ w0,
           bannedUntil (infractionsOf (redis.lrange (store w') (ipToKey ip))) w0
           = Done time.zero w0).
Proof.
  intros HM HB Hsec Hwf Hrun.
  destruct (AddInfraction_nil_ban ip w w' Hrun) as (evs & Htr & Hban).
  rewrite (lrange_after_report ip w w' HM HB Hrun).
  destruct (infractionsOf_FormatInt _ Hsec) as [Hi He].
  rewrite infractionsOf_app, parseErrors_app, Hi, He, app_nil_r.
  set (old := redis.lrange (store w) (ipToKey ip)) in *.
  set (n := (length old + 1 - Z.to_nat MaxRetry)%nat).
  pose proof (parseErrors_drop_nil n old Hwf) as Hkept.
  split; [done|]. exists evs. split; [done|].
  pose proof (parse_partition (drop n old)) as Hpart.
  rewrite Hkept, length_drop in Hpart. cbn [length] in Hpart.
  unfold redis.llen in Hban. fold old in Hban.
  split; intros Hev w0; rewrite bannedUntil_spec by (by left); f_equal.
  all: unfold endtimeOf, len; rewrite last_snoc, length_app; cbn [default length].
  all: case_bool_decide as Hlt; try done; exfalso.
  - apply Hban in Hev. unfold n in *. lia.
  - apply Hev, Hban. unfold n in *. lia.
Qed.

(** X7.  The log stays in the order of time.  When the parsed log of an address
    is sorted and none of its entries is later than the clock, a successful
    report leaves it sorted, with no entry later than the clock. *)
Theorem AddInfraction_keeps_order ip w w' :
  1 <= MaxRetry → 0 < BanTime →
  - 2 ^ 63 <= time.ToUnix (clock (tick w)) < 2 ^ 63 →
  StronglySorted Z.le (infractionsOf (redis.lrange (store w) (ipToKey ip))) →
  Forall (fun t => t <= clock (tick w))
         (infractionsOf (redis.lrange (store w) (ipToKey ip))) →
  AddInfraction ip w = Done None w' →
  StronglySorted Z.le (infractionsOf (redis.lrange (store w') (ipToKey ip)))
  ∧ Forall (fun t => t <= clock (tick w))
           (infractionsOf (redis.lrange (store w') (ipToKey ip))).
Proof.
  intros HM HB Hsec Hsorted Hle Hrun.
  rewrite (lrange_after_report ip w w' HM HB Hrun).
  destruct (infractionsOf_FormatInt _ Hsec) as [Hi _].
  rewrite infractionsOf_app, Hi.
  set (old := redis.lrange (store w) (ipToKey ip)) in *.
  set (n := (length old + 1 - Z.to_nat MaxRetry)%nat).
  rewrite <- (take_drop n old), infractionsOf_app in Hsorted, Hle.
  apply StronglySorted_app_1_r in Hsorted.
  apply Forall_app in Hle as [_ Hle].
  assert (time.Unix (time.ToUnix (clock (tick w))) <= clock (tick w)) as Hnow.
  { unfold time.Unix, time.ToUnix, time.Second.
    pose proof (Z.mod_pos_bound (clock (tick w)) 1000000000) as Hm.
    pose proof (Z.div_mod (clock (tick w)) 1000000000) as Hd. lia. }
  split.
  - apply StronglySorted_app_2; [|done|by repeat constructor].
    intros t1 t2 Hin1 ->%list_elem_of_singleton.
    pose proof Hin1 as (s & _ & Hs)%list_elem_of_omap.
    destruct (strconv.ParseInt s) as [v|]; [|done]. injection Hs as <-.
    rewrite Forall_forall in Hle. apply Hle in Hin1.
    unfold time.Unix, time.ToUnix, time.Second in *.
    apply Z.mul_le_mono_nonneg_r; [lia|].
    apply Z.div_le_lower_bound; lia.
  - apply Forall_app. split; [done|]. by repeat constructor.
Qed.

End Timestamps.

(** ** The whole pass: what it issues and what it reports *)

Section Accounting.

Context `{Net} `{Config} `{Environment}.

Lemma count_app p (evs1 evs2 : list Event) :
  count p (evs1 ++ evs2) = count p evs1 + count p evs2.
Proof. unfold count, len. rewrite List.filter_app, length_app. lia. Qed.

Lemma trimmed_app (evs1 evs2 : list Event) :
  trimmed (evs1 ++ evs2) = trimmed evs1 + trimmed evs2.
Proof.
  unfold trimmed. induction evs1 as [|e evs1 IH]; simpl; [done|].
  destruct e as [[]| | |]; simpl in *; lia.
Qed.

Lemma scanCounts_app (evs1 evs2 : list Event) :
  scanCounts (evs1 ++ evs2) = scanCounts evs1 ++ scanCounts evs2.
Proof. apply omap_app. Qed.

Lemma visited_app (evs1 evs2 : list Event) :
  visited (evs1 ++ evs2) = visited evs1 ++ visited evs2.
Proof. apply omap_app. Qed.

Lemma plain_visited evs : Forall plain evs → visited evs = [].
Proof.
  induction 1 as [|e evs He _ IH]; [done|].
  destruct e as [| | |[]]; try done.
Qed.

Lemma tally_refl st : tally st [] st.
Proof. unfold tally, count, trimmed. simpl. unfold len. simpl. lia. Qed.

Lemma tally_app st1 evs1 st2 evs2 st3 :
  tally st1 evs1 st2 → tally st2 evs2 st3 → tally st1 (evs1 ++ evs2) st3.
Proof.
  unfold tally. rewrite !count_app, trimmed_app. lia.
Qed.

(** Plain lines count for nothing. *)
Lemma plain_nothing evs :
  Forall plain evs →
  count isUnban evs = 0 ∧ count isDel evs = 0 ∧ count isTrim evs = 0
  ∧ count isVisit evs = 0 ∧ trimmed evs = 0 ∧ scanCounts evs = [].
Proof.
  induction 1 as [|e evs He _ IH]; [done|].
  destruct e as [| | |[]]; try done.
Qed.

Lemma plain_tally st evs : Forall plain evs → tally st evs st.
Proof.
  intros (Hu & Hd & Ht & _ & Hs & _)%plain_nothing.
  unfold tally. lia.
Qed.

Lemma plain_visitEvent key evs : Forall plain evs → Forall (visitEvent key) evs.
Proof.
  intros Hp. eapply Forall_impl; [exact Hp|]. by intros [| | |[]].
Qed.

Lemma parseErrors_plain redisList : Forall plain (parseErrors redisList).
Proof.
  unfold parseErrors. induction redisList as [|s rest IH]; simpl; [done|].
  destruct (strconv.ParseInt s); simpl; [done|]. by constructor.
Qed.

Lemma scanLimit_plain ip infractions w :
  ∃ w' evs,
    scanLimit ip infractions (endtimeOf infractions) w
    = Done (limitAt (clock (tick w)) infractions) w'
    ∧ trace w' = trace w ++ evs ∧ Forall plain evs.
Proof.
  unfold scanLimit, limitAt, activeBan.
  destruct (time.IsZero (endtimeOf infractions)); simpl.
  - exists w, []. rewrite app_nil_r. by split_and!.
  - unfold bind, time_Now. destruct (time.Before _ _); simpl.
    + eexists _, [_]. split; [reflexivity|]. simpl.
      split; [done|]. by repeat constructor.
    + eexists _, []. split; [reflexivity|]. simpl.
      rewrite app_nil_r. by split.
Qed.

Lemma applyPolicy_account key ip infractions i st w :
  ParseIP (string_drop (String.length keyPrefix) key) = Some ip →
  ∃ st' w' evs,
    applyPolicy key ip infractions i st w = Done st' w'
    ∧ trace w' = trace w ++ evs
    ∧ tally st evs st'
    ∧ keysEvaluated st' = keysEvaluated st
    ∧ scanIterations st' = scanIterations st
    ∧ count isVisit evs = 0 ∧ scanCounts evs = []
    ∧ Forall (visitEvent key) evs
    ∧ visited evs = [].
Proof.
  intros Hip.
  unfold applyPolicy, unban, tally.
  unfold Unban, Del, LTrim, issue, log, logIfErr, emit, bind, ret; simpl.
  repeat match goal with
    | |- context [fails ?n] => destruct (fails n) eqn:?; simpl
    | |- context [bool_decide ?P] => destruct (bool_decide_reflect P); simpl
    end.
  all: eexists _, _, _; split; [reflexivity|]; simpl.
  all: split; [repeat rewrite <- app_assoc; simpl; try reflexivity;
               by rewrite app_nil_r|].
  all: split; [unfold count, trimmed, len; simpl; lia|].
  all: split; [done|]; split; [done|]; split; [done|]; split; [done|].
  all: split; [|done].
  all: repeat (apply Forall_cons; split; [by simpl|]); by apply Forall_nil.
Qed.

(** One visit: the counters follow the events. *)
Lemma manageKey_account key st w :
  1 <= MaxRetry → matchesPattern key = true →
  ∃ st' w' evs,
    manageKey key st w = Done st' w'
    ∧ trace w' = trace w ++ evs
    ∧ tally st evs st'
    ∧ keysEvaluated st' = keysEvaluated st
    ∧ scanIterations st' = scanIterations st
    ∧ count isVisit evs = 1 ∧ scanCounts evs = []
    ∧ Forall (visitEvent key) evs
    ∧ visited evs = [key].
Proof.
  intros HM Hmatch. unfold manageKey.
  unfold bind at 1. rewrite keyToIp_spec by done.
  destruct (ParseIP _) as [ip|] eqn:Hip.
  2:{ eexists st, _, [_]. split; [reflexivity|]. simpl.
      split; [done|]. split; [unfold tally, count, trimmed, len; simpl; lia|].
      split_and!; try done. by repeat constructor. }
  unfold bind at 1. unfold LRange, issue.
  destruct (fails (ncmd w)) eqn:Hf; simpl.
  { eexists st, _, [_; _]. split; [reflexivity|]. simpl.
    split; [by rewrite <- app_assoc|].
    split; [unfold tally, count, trimmed, len; simpl; lia|].
    split_and!; try done. by repeat constructor. }
  set (infr := infractionsOf (redis.lrange (store w) key)).
  unfold bind at 1. rewrite listToInfractions_spec. fold infr.
  unfold bind at 1. rewrite bannedUntil_spec by (by left).
  unfold bind at 1.
  match goal with |- context [scanLimit ip infr _ ?w1] =>
    destruct (scanLimit_plain ip infr w1) as (w2 & evs2 & Hrun2 & Htr2 & Hq2)
  end.
  rewrite Hrun2. cbn [tick store ncmd trace] in *.
  pose proof (limitAt_range (clock (tick w)) infr HM) as Hlim.
  unfold bind at 1.
  destruct (staleLoop_spec infr (limitAt (clock (tick w)) infr)
              (Z.to_nat (limitAt (clock (tick w)) infr - 0))
              (proj2 Hlim) 0 w2)
    as (i & w3 & Hrun3 & _ & _ & Htr3 & _); [lia..|].
  rewrite Hrun3.
  destruct (applyPolicy_account key ip infr i st w3 Hip)
    as (st' & w' & evs4 & Hrun4 & Htr4 & Htal & Hk & Hs & Hv & Hsc & Hev
        & Hvis).
  rewrite Hrun4.
  assert (Forall plain (parseErrors (redis.lrange (store w) key) ++ evs2))
    as Hplain.
  { apply Forall_app. split; [apply parseErrors_plain|done]. }
  destruct (plain_nothing _ Hplain) as (_ & _ & _ & Hv0 & _ & Hs0).
  exists st', w', ([EvCmd (redis.LRange key) true]
                   ++ (parseErrors (redis.lrange (store w) key) ++ evs2)
                   ++ evs4).
  split; [done|].
  split; [by rewrite Htr4, Htr3, Htr2, <- !app_assoc|].
  split.
  { apply (tally_app st _ st); [|apply (tally_app st _ st)]; try done.
    - unfold tally, count, trimmed, len; simpl; lia.
    - by apply plain_tally. }
  split; [done|]. split; [done|].
  split; [rewrite count_app, count_app, Hv0, Hv; unfold count, len; simpl; lia|].
  split; [by rewrite scanCounts_app, scanCounts_app, Hs0, Hsc|].
  split.
  { apply Forall_app. split; [by repeat constructor|].
    apply Forall_app. split; [by apply plain_visitEvent|done]. }
  by rewrite visited_app, visited_app, (plain_visited _ Hplain), Hvis.
Qed.

Lemma passEvent_visit key keys e :
  key ∈ keys → visitEvent key e → passEvent keys e.
Proof.
  intros Hin Hv. destruct e as [[]| | |]; simpl in *; try done; eauto.
Qed.

Lemma passEvent_mono keys keys' e :
  keys ⊆ keys' → passEvent keys e → passEvent keys' e.
Proof.
  intros Hsub. destruct e as [[]| | |]; simpl; try done.
  all: intros (k & Hin & Hv); exists k; split; [by apply Hsub|done].
Qed.

Lemma forKeys_account keys :
  1 <= MaxRetry → (∀ key, key ∈ keys → matchesPattern key = true) →
  ∀ st w,
    ∃ st' w' evs,
      forKeys keys st w = Done st' w'
      ∧ trace w' = trace w ++ evs
      ∧ tally st evs st'
      ∧ keysEvaluated st' = keysEvaluated st
      ∧ scanIterations st' = scanIterations st
      ∧ count isVisit evs = len keys ∧ scanCounts evs = []
      ∧ Forall (passEvent keys) evs
      ∧ visited evs = keys.
Proof.
  intros HM. induction keys as [|key keys IH]; intros Hkeys st w; simpl.
  - exists st, w, []. rewrite app_nil_r.
    split_and!; try done. apply tally_refl.
  - destruct (manageKey_account key st w HM)
      as (st1 & w1 & evs1 & Hrun1 & Htr1 & Htal1 & Hk1 & Hs1 & Hv1 & Hsc1 & Hev1
          & Hvis1);
      [apply Hkeys; by left|].
    unfold bind. rewrite Hrun1.
    destruct (IH (fun k Hk => Hkeys k (list_elem_of_further _ _ _ Hk)) st1 w1)
      as (st' & w' & evs & Hrun & Htr & Htal & Hk & Hs & Hv & Hsc & Hev & Hvis).
    exists st', w', (evs1 ++ evs). split; [done|].
    split; [by rewrite Htr, Htr1, <- app_assoc|].
    split; [by eapply tally_app|].
    split; [congruence|]. split; [congruence|].
    split; [rewrite count_app, Hv1, Hv; unfold len; simpl; lia|].
    split; [by rewrite scanCounts_app, Hsc1, Hsc|].
    split; [|by rewrite visited_app, Hvis1, Hvis].
    apply Forall_app. split.
    + eapply Forall_impl; [exact Hev1|]. intros e.
      apply passEvent_visit. by left.
    + eapply Forall_impl; [exact Hev|]. intros e.
      apply passEvent_mono. intros x Hx. by right.
Qed.


Lemma pageTally_app st1 evs1 st2 evs2 st3 :
  pageTally st1 evs1 st2 → pageTally st2 evs2 st3 →
  pageTally st1 (evs1 ++ evs2) st3.
Proof.
  unfold pageTally. intros (Ht1 & Hk1 & Hs1) (Ht2 & Hk2 & Hs2).
  split; [by eapply tally_app|].
  rewrite count_app, scanCounts_app. unfold len in *. rewrite length_app. lia.
Qed.

Lemma scanPage_account page next cursor cnt st w :
  1 <= MaxRetry →
  ∃ st' c w' evs keys,
    scanPage page next cursor cnt st w = Done (st', c) w'
    ∧ trace w' = trace w ++ evs
    ∧ pageTally st evs st'
    ∧ scanCounts evs = [cnt]
    ∧ Forall (passEvent keys) evs
    ∧ visited evs = keys
    ∧ ((fails (ncmd w) = false
        ∧ keys = List.filter matchesPattern page ∧ c = next)
       ∨ (fails (ncmd w) = true ∧ keys = [] ∧ c = 0)).
Proof.
  intros HM. destruct w as [s t n tr]. unfold scanPage, Scan, issue.
  unfold bind at 1. simpl. destruct (fails n) eqn:Hf; simpl.
  - unfold bind at 1. simpl. unfold bind at 1. simpl.
    eexists _, _, _, [_; _], []. split; [reflexivity|]. simpl.
    split; [by rewrite <- app_assoc|].
    split; [unfold pageTally, tally, count, trimmed, len; simpl; lia|].
    split; [done|]. split; [by repeat constructor|]. split; [done|].
    by right.
  - unfold bind at 1. simpl. unfold bind at 1.
    match goal with |- context [forKeys ?ks st ?w1] =>
      destruct (forKeys_account ks HM) with (st := st) (w := w1)
        as (st' & w' & evs & Hrun & Htr & Htal & Hk & Hs & Hv & Hsc & Hev
            & Hvis)
    end.
    { by intros key [_ Hm]%filter_matches. }
    rewrite Hrun. simpl in *.
    eexists _, _, _, (EvCmd (redis.Scan cursor cnt) true :: evs), _.
    split; [reflexivity|].
    split; [by rewrite Htr, <- app_assoc|].
    split.
    { unfold pageTally, tally, count, trimmed, len in *. cbn [scanCounts omap list_omap].
      fold (scanCounts evs). rewrite Hsc. simpl. lia. }
    split; [unfold scanCounts in *; csimpl; by rewrite Hsc|].
    split; [apply Forall_cons; by split|]. split; [exact Hvis|]. by left.
Qed.

Lemma scannedKeys_cons page pages :
  scannedKeys (page :: pages)
  = List.filter matchesPattern page ++ scannedKeys pages.
Proof. done. Qed.

Lemma scanLoop_account pages :
  1 <= MaxRetry →
  ∀ cursor cnt st w,
    0 <= cursor →
    ∃ st' w' evs (k n : nat),
      scanLoop pages cursor cnt st w = Done st' w'
      ∧ trace w' = trace w ++ evs
      ∧ pageTally st evs st'
      ∧ scanCounts evs = countsFrom n cnt
      ∧ (1 <= n <= Nat.max 1 (length pages))%nat
      ∧ (k <= length pages)%nat
      ∧ Forall (passEvent (scannedKeys (take k pages))) evs
      ∧ ((∀ m, fails m = false) →
         k = length pages ∧ n = Nat.max 1 (length pages))
      ∧ visited evs = scannedKeys (take k pages).
Proof.
  intros HM. induction pages as [|page rest IH]; intros cursor cnt st w Hc.
  - simpl. unfold bind.
    destruct (scanPage_account [] 0 cursor cnt st w HM)
      as (st' & c & w' & evs & keys & Hrun & Htr & Htal & Hsc & Hev & Hvis
          & Hcase).
    rewrite Hrun. exists st', w', evs, 0%nat, 1%nat.
    assert (keys = []) as ->
      by (by destruct Hcase as [(_ & -> & _)|(_ & -> & _)]).
    split; [done|]. split; [done|]. split; [done|]. split; [done|].
    split; [simpl; lia|]. split; [done|]. split; [done|]. by split.
  - destruct rest as [|page' rest'].
    + simpl. unfold bind.
      destruct (scanPage_account page 0 cursor cnt st w HM)
        as (st' & c & w' & evs & keys & Hrun & Htr & Htal & Hsc & Hev & Hvis
            & Hcase).
      rewrite Hrun.
      destruct Hcase as [(Hf & -> & _)|(Hf & -> & _)].
      * exists st', w', evs, 1%nat, 1%nat.
        assert (scannedKeys [page] = List.filter matchesPattern page) as Hone
          by (unfold scannedKeys; simpl; by rewrite app_nil_r).
        split; [done|]. split; [done|]. split; [done|]. split; [done|].
        split; [simpl; lia|]. split; [simpl; lia|].
        cbn [take]. rewrite Hone. by split_and!.
      * exists st', w', evs, 0%nat, 1%nat.
        split; [done|]. split; [done|]. split; [done|]. split; [done|].
        split; [simpl; lia|]. split; [simpl; lia|]. split; [done|].
        split; [|done]. intros Hok. by rewrite Hok in Hf.
    + cbn [scanLoop]. unfold bind at 1.
      destruct (scanPage_account page (cursor + 1) cursor cnt st w HM)
        as (st1 & c & w1 & evs1 & keys1 & Hrun1 & Htr1 & Htal1 & Hsc1 & Hev1
            & Hvis1 & Hcase).
      rewrite Hrun1. cbn [fst snd].
      destruct Hcase as [(Hf & -> & ->)|(Hf & -> & ->)].
      * rewrite bool_decide_eq_false_2 by lia.
        destruct (IH (cursor + 1)
                    (if bool_decide (cnt < 1000) then cnt * 2 else cnt)
                    st1 w1)
          as (st' & w' & evs & k & n & Hrun & Htr & Htal & Hsc & Hn & Hk & Hev
              & Hok & Hvis); [lia|].
        exists st', w', (evs1 ++ evs), (S k), (S n).
        split; [done|]. split; [by rewrite Htr, Htr1, <- app_assoc|].
        split; [by eapply pageTally_app|].
        split; [by rewrite scanCounts_app, Hsc1, Hsc|].
        split; [cbn [length] in *; lia|]. split; [cbn [length] in *; lia|].
        split; [|split].
        -- cbn [take]. rewrite scannedKeys_cons. apply Forall_app. split.
           ++ eapply Forall_impl; [exact Hev1|]. intros e.
              apply passEvent_mono. intros x Hx. apply elem_of_app. by left.
           ++ eapply Forall_impl; [exact Hev|]. intros e.
              apply passEvent_mono. intros x Hx. apply elem_of_app. by right.
        -- intros Hall. destruct (Hok Hall) as [-> ->].
           cbn [length]. lia.
        -- cbn [take]. by rewrite scannedKeys_cons, visited_app, Hvis1, Hvis.
      * rewrite bool_decide_eq_true_2 by done.
        exists st1, w1, evs1, 0%nat, 1%nat.
        split; [done|]. split; [done|]. split; [done|]. split; [done|].
        split; [cbn [length]; lia|]. split; [lia|]. split; [done|].
        split; [|done]. intros Hok. by rewrite Hok in Hf.
Qed.

Lemma pageTally_observed evs st : pageTally noStats evs st → st = observed evs.
Proof.
  unfold pageTally, tally, observed. destruct st; simpl.
  intros ((-> & -> & -> & ->) & -> & ->). f_equal; lia.
Qed.

Lemma summary_plain st : Forall plain (summary st).
Proof.
  unfold summary. repeat case_bool_decide; simpl; by repeat constructor.
Qed.

(** The whole pass. *)
Lemma manageState_account_visited pages w :
  1 <= MaxRetry →
  ∃ w' evs (k n : nat),
    manageState pages w = Done tt w'
    ∧ trace w' = trace w ++ evs ++ summary (observed evs)
    ∧ scanCounts evs = countsFrom n 100
    ∧ (1 <= n <= Nat.max 1 (length pages))%nat
    ∧ (k <= length pages)%nat
    ∧ Forall (passEvent (scannedKeys (take k pages))) evs
    ∧ ((∀ m, fails m = false) →
       k = length pages ∧ n = Nat.max 1 (length pages))
    ∧ visited evs = scannedKeys (take k pages).
Proof.
  intros HM. destruct w as [s t n0 tr]. unfold manageState.
  unfold bind at 1. unfold time_Now at 1. simpl.
  unfold bind at 1.
  match goal with |- context [scanLoop pages 0 100 noStats ?w1] =>
    destruct (scanLoop_account pages HM 0 100 noStats w1)
      as (st & w2 & evs & k & n & Hrun & Htr & Htal & Hsc & Hn & Hk & Hev & Hok
          & Hvis)
  end; [done|].
  rewrite Hrun. apply pageTally_observed in Htal. subst st.
  destruct w2 as [s2 t2 n2 tr2]. simpl in Htr. subst tr2.
  exists (mkWorld s2 (S t2) n2 (tr ++ evs ++ summary (observed evs))), evs, k, n.
  split; [|split; [reflexivity|]; split; [exact Hsc|]; split; [exact Hn|];
            split; [exact Hk|]; split; [exact Hev|];
            split; [exact Hok|exact Hvis]].
  unfold summary, bind, time_Now, log, emit, ret; simpl.
  repeat case_bool_decide; simpl; repeat rewrite <- app_assoc; simpl;
    by rewrite ?app_nil_r.
Qed.

Lemma manageState_account pages w :
  1 <= MaxRetry →
  ∃ w' evs (k n : nat),
    manageState pages w = Done tt w'
    ∧ trace w' = trace w ++ evs ++ summary (observed evs)
    ∧ scanCounts evs = countsFrom n 100
    ∧ (1 <= n <= Nat.max 1 (length pages))%nat
    ∧ (k <= length pages)%nat
    ∧ Forall (passEvent (scannedKeys (take k pages))) evs
    ∧ ((∀ m, fails m = false) →
       k = length pages ∧ n = Nat.max 1 (length pages)).
Proof.
  intros HM.
  destruct (manageState_account_visited pages w HM)
    as (w' & evs & k & n & Hrun & Htr & Hsc & Hn & Hk & Hev & Hok & _).
  exists w', evs, k, n.
  split; [exact Hrun|]. split; [exact Htr|]. split; [exact Hsc|].
  split; [exact Hn|]. split; [exact Hk|]. split; [exact Hev|exact Hok].
Qed.

Lemma countsFrom_closed (n s : nat) :
  countsFrom n (100 * 2 ^ Z.of_nat (Nat.min s 4))
  = (fun j => 100 * 2 ^ Z.of_nat (Nat.min j 4)) <$> seq s n.
Proof.
  revert s. induction n as [|n IH]; intros s; [done|].
  cbn [countsFrom seq fmap list_fmap]. f_equal.
  rewrite <- IH. f_equal.
  destruct s as [|[|[|[|s]]]]; try done.
  replace (Nat.min (S (S (S (S s)))) 4) with 4%nat by lia.
  by replace (Nat.min (S (S (S (S (S s))))) 4) with 4%nat by lia.
Qed.

(** X8.  A pass only maintains.  Whatever the server holds and whichever
    commands fail, a pass returns without a run-time panic.  It visits, in
    order and once for each time the scan returns them, the keys of the
    first [k] pages of the scan that match the pattern: of all the pages
    when no command fails.  Apart from lines of the log and SCAN commands
    its events are LRANGE, LTRIM and DEL on a key that it visits and calls
    of [Unban] for the address that such a key names.  It never calls
    [Ban], never appends to a log and never sets a time to live. *)
Theorem manageState_only_maintains pages w :
  1 <= MaxRetry →
  ∃ w' evs (k : nat),
    manageState pages w = Done tt w'
    ∧ trace w' = trace w ++ evs
    ∧ (k <= length pages)%nat
    ∧ visited evs = scannedKeys (take k pages)
    ∧ Forall (passEvent (visited evs)) evs
    ∧ ((∀ m, fails m = false) → visited evs = scannedKeys pages).
Proof.
  intros HM.
  destruct (manageState_account_visited pages w HM)
    as (w' & evs & k & n & Hrun & Htr & _ & _ & Hk & Hev & Hok & Hvis).
  assert (visited (evs ++ summary (observed evs)) = scannedKeys (take k pages))
    as Hall.
  { rewrite visited_app, Hvis, (plain_visited _ (summary_plain _)).
    apply app_nil_r. }
  exists w', (evs ++ summary (observed evs)), k.
  split; [exact Hrun|]. split; [exact Htr|]. split; [exact Hk|].
  split; [exact Hall|]. rewrite Hall. split.
  - apply Forall_app. split; [exact Hev|].
    eapply Forall_impl; [apply summary_plain|]. by intros [| | |[]].
  - intros Hnone. destruct (Hok Hnone) as [-> _]. by rewrite firstn_all.
Qed.

(** X9.  The summary of a pass is exact.  The lines with which a pass ends
    report the counters of its own events: the keys visited, the SCAN
    commands, the calls of [Unban], the DEL commands, the LTRIM commands
    and the sum of their offsets.  A DEL or an LTRIM that failed is
    counted like one that succeeded. *)
Theorem manageState_summary_exact pages w :
  1 <= MaxRetry →
  ∃ w' evs,
    manageState pages w = Done tt w'
    ∧ trace w' = trace w ++ evs ++ summary (observed evs)
    ∧ scanCounts evs ≠ [].
Proof.
  intros HM.
  destruct (manageState_account pages w HM)
    as (w' & evs & k & n & Hrun & Htr & Hsc & Hn & _).
  exists w', evs. split; [exact Hrun|]. split; [exact Htr|].
  rewrite Hsc. destruct n; [lia|done].
Qed.

(** X10.  The COUNT argument of the SCAN commands of a pass starts at 100 and
    doubles from one command to the next until it is 1600, where it
    stays; a pass issues at least one SCAN and at most one for each page,
    exactly that many when no command fails. *)
Theorem manageState_scan_counts pages w :
  1 <= MaxRetry →
  ∃ w' evs (n : nat),
    manageState pages w = Done tt w'
    ∧ trace w' = trace w ++ evs
    ∧ scanCounts evs
      = (fun j => 100 * 2 ^ Z.of_nat (Nat.min j 4)) <$> seq 0 n
    ∧ (1 <= n <= Nat.max 1 (length pages))%nat
    ∧ ((∀ m, fails m = false) → n = Nat.max 1 (length pages)).
Proof.
  intros HM.
  destruct (manageState_account pages w HM)
    as (w' & evs & k & n & Hrun & Htr & Hsc & Hn & _ & _ & Hok).
  exists w', (evs ++ summary (observed evs)), n.
  split; [exact Hrun|]. split; [exact Htr|]. split.
  - rewrite scanCounts_app, Hsc.
    destruct (plain_nothing _ (summary_plain (observed evs)))
      as (_ & _ & _ & _ & _ & ->).
    rewrite app_nil_r. apply (countsFrom_closed n 0).
  - split; [exact Hn|]. intros Hall. by destruct (Hok Hall).
Qed.

End Accounting.

(** ** The whole pass: what it leaves on the server *)

Section Shrinking.

Context `{Net} `{Config} `{Environment}.

Lemma policyStore_shrinks key n i (s : gmap string redis.Entry) key' :
  0 <= i →
  redis.lrange (policyStore key n i s) key' `suffix_of` redis.lrange s key'
  ∧ (policyStore key n i s !! key' = None
     ∨ redis.ttlOf (policyStore key n i s) key' = redis.ttlOf s key').
Proof.
  intros Hi. unfold policyStore.
  case_bool_decide; [|case_bool_decide]; [| |by split; [|right]].
  - destruct (decide (key = key')) as [<-|Hne].
    + rewrite lrange_del_eq. split; [apply suffix_nil|].
      left. apply lookup_delete_eq.
    + rewrite lrange_del_ne by done. split; [done|]. right.
      unfold redis.ttlOf, redis.del. by rewrite lookup_delete_ne.
  - destruct (decide (key = key')) as [<-|Hne].
    + rewrite lrange_ltrim_eq by done. split; [apply suffix_drop|].
      unfold redis.ltrim, redis.ttlOf.
      destruct (s !! key) as [e|] eqn:He; [|right; by rewrite He].
      rewrite bool_decide_eq_false_2 by lia.
      destruct (drop _ _).
      * left. apply lookup_delete_eq.
      * right. by rewrite lookup_insert_eq.
    + rewrite lrange_ltrim_ne by done. split; [done|]. right.
      unfold redis.ttlOf. by rewrite ltrim_lookup_ne.
Qed.

Lemma manageKey_shrinks key st w :
  1 <= MaxRetry → matchesPattern key = true →
  ∃ st' w',
    manageKey key st w = Done st' w'
    ∧ ∀ key',
        redis.lrange (store w') key' `suffix_of` redis.lrange (store w) key'
        ∧ (key ≠ key' → store w' !! key' = store w !! key')
        ∧ (store w' !! key' = None
           ∨ redis.ttlOf (store w') key' = redis.ttlOf (store w) key')
        ∧ (store w !! key' = None → store w' !! key' = None).
Proof.
  intros HM Hmatch.
  destruct (manageKey_spec key st w HM Hmatch)
    as (st' & w' & evs & Hrun & _ & _ & Hcase).
  exists st', w'. split; [done|]. intros key'.
  destruct Hcase as [(-> & _)|(ip & i & _ & _ & Hb & _ & _ & ->)].
  { split; [done|]. split; [done|]. split; [by right|done]. }
  destruct (fails _).
  { split; [done|]. split; [done|]. split; [by right|done]. }
  destruct Hb as [[Hi _] _].
  destruct (policyStore_shrinks key
              (len (infractionsOf (redis.lrange (store w) key))) i
              (store w) key' Hi) as [Hsuf Httl].
  split; [done|]. split; [|split; [done|]].
  - intros Hne. by apply policyStore_lookup_ne.
  - intros Hnone. destruct (decide (key = key')) as [<-|Hne].
    + by apply policyStore_lookup_None.
    + by rewrite policyStore_lookup_ne.
Qed.

(** X11.  A pass only shortens the logs.  Whichever commands fail, after a pass
    the list under every key is a suffix of the list that was there, a key
    that survives keeps its time to live, and a key that is on no page of
    the scan is left as it was. *)
Theorem manageState_only_shrinks pages w :
  1 <= MaxRetry →
  ∃ w',
    manageState pages w = Done tt w'
    ∧ ∀ key,
        redis.lrange (store w') key `suffix_of` redis.lrange (store w) key
        ∧ (store w' !! key = None
           ∨ redis.ttlOf (store w') key = redis.ttlOf (store w) key)
        ∧ ((∀ page, page ∈ pages → key ∉ page) →
           store w' !! key = store w !! key).
Proof.
  intros HM.
  destruct (manageState_visits
              (fun vis w1 =>
                 (∀ k, k ∈ vis → ∃ page, page ∈ pages ∧ k ∈ page)
                 ∧ ∀ key,
                     redis.lrange (store w1) key
                       `suffix_of` redis.lrange (store w) key
                     ∧ (store w1 !! key = None
                        ∨ redis.ttlOf (store w1) key = redis.ttlOf (store w) key)
                     ∧ (key ∉ vis → store w1 !! key = store w !! key))
              (fun key => ∃ page, page ∈ pages ∧ key ∈ page))
    with (pages := pages) (w := w) as (w' & keys & Hrun & [Hvis Hinv] & _).
  - intros vis s t n tr HI. exact HI.
  - intros vis s t n tr l HI. exact HI.
  - intros vis s t n tr cursor cnt ok HI. exact HI.
  - intros vis key st w1 Hkey Hmatch [Hvis Hinv].
    destruct (manageKey_shrinks key st w1 HM Hmatch) as (st' & w' & Hrun & Hstep).
    exists st', w'. split; [exact Hrun|]. split.
    + intros k [Hk|Hk%list_elem_of_singleton]%elem_of_app;
        [by apply Hvis|by subst].
    + intros key'. destruct (Hinv key') as (Hsuf & Httl & Hsame).
      destruct (Hstep key') as (Hsuf' & Hsame' & Httl' & Hnone').
      split; [by etransitivity|]. split.
      * destruct Httl' as [?|Heq]; [by left|].
        destruct Httl as [Hnone|Heq']; [left; by apply Hnone'|].
        right. congruence.
      * intros Hnot. rewrite Hsame'.
        -- apply Hsame. intros Hin. apply Hnot, elem_of_app. by left.
        -- intros ->. apply Hnot, elem_of_app. right. by left.
  - intros page key Hp Hk. by exists page.
  - split; [by intros k ?%elem_of_nil|]. intros key.
    split; [done|]. split; [by right|done].
  - exists w'. split; [exact Hrun|]. intros key.
    destruct (Hinv key) as (Hsuf & Httl & Hsame).
    split; [done|]. split; [done|]. intros Hnot. apply Hsame.
    intros (page & Hp & Hk)%Hvis. by apply (Hnot page).
Qed.

End Shrinking.

(** ** Edges of a visit *)

Section Edges.

Context `{Net} `{Config} `{Environment}.

Lemma manageKey_read key ip st w :
  matchesPattern key = true →
  ParseIP (string_drop (String.length keyPrefix) key) = Some ip →
  fails (ncmd w) = false →
  manageKey key st w
  = (endtime <~ bannedUntil (infractionsOf (redis.lrange (store w) key)) ;;
     limit <~ scanLimit ip (infractionsOf (redis.lrange (store w) key))
                endtime ;;
     i <~ staleLoop (infractionsOf (redis.lrange (store w) key)) limit 0 ;;
     applyPolicy key ip (infractionsOf (redis.lrange (store w) key)) i st)
      (mkWorld (store w) (tick w) (S (ncmd w))
               ((trace w ++ [EvCmd (redis.LRange key) true])
                ++ parseErrors (redis.lrange (store w) key))).
Proof.
  intros Hmatch Hip Hf. unfold manageKey.
  unfold bind at 1. rewrite keyToIp_spec by done.
  rewrite Hip. unfold bind at 1. unfold LRange, issue. rewrite Hf.
  cbn [fst snd]. unfold bind at 1. by rewrite listToInfractions_spec.
Qed.

(** X12.  A key whose list holds no timestamp that can be read (the key expired
    after the SCAN, or every entry is malformed).  With a threshold of at
    least 1 the visit calls no [Unban] and issues DEL, which removes the
    key with everything under it.  With a threshold of 0 or less
    [bannedUntil] indexes the empty log at [len - 1] and the pass dies of
    the run-time panic. *)
Theorem manageKey_unreadable_log key ip st w :
  matchesPattern key = true →
  ParseIP (string_drop (String.length keyPrefix) key) = Some ip →
  fails (ncmd w) = false →
  infractionsOf (redis.lrange (store w) key) = [] →
  (MaxRetry <= 0 → ∃ w', manageKey key st w = Panic w')
  ∧ (1 <= MaxRetry →
     ∃ w' evs,
       manageKey key st w = Done (bumpDeleted st) w'
       ∧ trace w' = trace w ++ evs
       ∧ (∀ ip', EvUnban ip' ∉ evs)
       ∧ EvCmd (redis.Del key) (negb (fails (S (ncmd w)))) ∈ evs
       ∧ (fails (S (ncmd w)) = false → store w' = delete key (store w))).
Proof.
  intros Hmatch Hip Hf Hinfr.
  rewrite (manageKey_read key ip st w Hmatch Hip Hf), Hinfr.
  split.
  - intros HM. unfold bind at 1. unfold bannedUntil, len. simpl.
    rewrite bool_decide_eq_false_2 by lia.
    unfold bind, index. simpl. by eexists.
  - intros HM. unfold bind at 1. unfold bannedUntil, len. simpl.
    rewrite bool_decide_eq_true_2 by lia.
    unfold scanLimit. change (time.IsZero time.zero) with true.
    unfold bind, ret; simpl.
    rewrite staleLoop_step. unfold len. simpl.
    unfold applyPolicy, len. simpl.
    rewrite bool_decide_eq_false_2 by lia.
    unfold Del, issue, bind, ret, log, emit. simpl.
    destruct (fails (S (ncmd w))) eqn:Hf2; simpl.
    + eexists _, _. split; [reflexivity|]. simpl.
      split; [repeat rewrite <- app_assoc; reflexivity|].
      split_and!; [|rewrite !elem_of_app, !list_elem_of_In; simpl; tauto|done].
      intros ip' Hin.
      apply elem_of_app in Hin as [Hin|Hin];
        [by apply list_elem_of_singleton in Hin|].
      apply elem_of_app in Hin as [Hin|Hin].
      { revert Hin. apply quiet_not_unban, parseErrors_quiet. }
      apply list_elem_of_In in Hin. simpl in Hin. intuition discriminate.
    + eexists _, _. split; [reflexivity|]. simpl.
      split; [repeat rewrite <- app_assoc; reflexivity|].
      split_and!; [|rewrite !elem_of_app, !list_elem_of_In; simpl; tauto|done].
      intros ip' Hin.
      apply elem_of_app in Hin as [Hin|Hin];
        [by apply list_elem_of_singleton in Hin|].
      apply elem_of_app in Hin as [Hin|Hin].
      { revert Hin. apply quiet_not_unban, parseErrors_quiet. }
      apply list_elem_of_In in Hin. simpl in Hin. intuition discriminate.
Qed.

(** X13.  Failures of the server during a visit, as the client sees them.
    When the LRANGE of the visit fails, the visit ends there: the error is
    logged and nothing else is issued.  When the command of the policy
    fails (the DEL when the loop ended at [len(log)], the LTRIM when it
    ended at an index [i > 0]), the error is logged after the command, and
    the call of [Unban] that precedes the command has been made whenever
    it was due: the failure does not hold it back.  This holds for every
    index, whatever the ages. *)
Theorem manageKey_failures key ip :
  (∀ st w,
     matchesPattern key = true →
     ParseIP (string_drop (String.length keyPrefix) key) = Some ip →
     fails (ncmd w) = true →
     ∃ w',
       manageKey key st w = Done st w'
       ∧ trace w'
         = trace w ++ [EvCmd (redis.LRange key) false;
                       EvLog (ErrorLog_err (StoreError (redis.LRange key)))])
  ∧ (∀ infractions i st w,
       fails (ncmd w) = true →
       i = len infractions ∨ 0 < i →
       ∃ st' w' evs,
         applyPolicy key ip infractions i st w = Done st' w'
         ∧ trace w'
           = trace w ++ evs
             ++ (let c := if bool_decide (i = len infractions)
                          then redis.Del key else redis.LTrim key i in
                 [EvCmd c false; EvLog (ErrorLog_err (StoreError c))])
         ∧ (∀ ip', EvUnban ip' ∈ evs ↔
                   ip' = ip ∧ unbanDue (len infractions) i)
         ∧ Forall (fun e => match e with
                            | EvCmd _ _ => False
                            | _ => True
                            end) evs).
Proof.
  split.
  - intros st w Hmatch Hip Hf. unfold manageKey.
    unfold bind at 1. rewrite keyToIp_spec by done.
    rewrite Hip. unfold bind at 1. unfold LRange, issue. rewrite Hf.
    unfold bind, log, emit, ret. cbn [store tick ncmd trace].
    eexists. split; [reflexivity|]. cbn [trace]. by rewrite <- app_assoc.
  - intros infractions i st w Hf Hi.
    unfold applyPolicy, unban, unbanDue.
    unfold Unban, Del, LTrim, issue, log, logIfErr, emit, bind, ret; simpl.
    repeat match goal with
      | |- context [fails (ncmd w)] => rewrite Hf; simpl
      | |- context [bool_decide ?P] => destruct (bool_decide_reflect P); simpl
      end.
    all: try lia.
    all: first
      [ eexists _, _, [_; _]; split; [reflexivity|]; simpl;
        split; [repeat rewrite <- app_assoc; simpl; reflexivity|]
      | eexists _, _, []; split; [reflexivity|]; simpl;
        split; [repeat rewrite <- app_assoc; simpl; reflexivity|] ].
    all: split; [|by repeat constructor].
    all: intros ip'; rewrite list_elem_of_In; simpl.
    all: intuition (try discriminate; try congruence; try lia).
Qed.

(** X14.  The key of an address matches the pattern of the SCAN, and [keyToIp]
    reads it back without a panic as [net.ParseIP] of the text of the
    address. *)
Theorem keyToIp_ipToKey ip w :
  matchesPattern (ipToKey ip) = true
  ∧ keyToIp (ipToKey ip) w = Done (ParseIP (IP_String ip)) w.
Proof.
  assert (matchesPattern (ipToKey ip) = true) as Hm.
  { unfold matchesPattern, ipToKey, keyPrefix. simpl.
    by destruct (IP_String ip). }
  split; [done|]. by rewrite keyToIp_spec.
Qed.

End Edges.

(** ** The resynchronisation under failures *)

Section Resync.

Context `{Net} `{Config} `{Environment}.

Lemma AddInfraction_touches ip w :
  ∃ r w' evs,
    AddInfraction ip w = Done r w'
    ∧ trace w' = trace w ++ evs
    ∧ Forall (reportEvent ip) evs
    ∧ (∀ key, ipToKey ip ≠ key → store w' !! key = store w !! key).
Proof.
  unfold AddInfraction, Ban, RPush, LTrim, Expire, issue, log, emit, time_Now,
    bind, ret; simpl.
  repeat match goal with
    | |- context [fails ?n] => destruct (fails n) eqn:?; simpl
    | |- context [bool_decide ?P] => destruct (bool_decide_reflect P); simpl
    end.
  all: eexists _, _, _; split; [reflexivity|]; simpl.
  all: split; [repeat rewrite <- app_assoc; simpl; reflexivity|].
  all: split; [repeat (apply Forall_cons; split; [by simpl|]);
               by apply Forall_nil|].
  all: intros key Hne;
    rewrite ?expire_lookup_ne, ?ltrim_lookup_ne, ?lookup_insert_ne by done;
    done.
Qed.

Lemma topUp_touches ip (m : nat) :
  ∀ i w,
    Z.to_nat (MaxRetry - i) = m →
    ∃ w' evs,
      topUp ip i w = Done tt w'
      ∧ trace w' = trace w ++ evs
      ∧ Forall (reportEvent ip) evs
      ∧ (∀ key, ipToKey ip ≠ key → store w' !! key = store w !! key).
Proof.
  induction m as [|m IH]; intros i w Hm.
  - exists w, []. rewrite topUp_step, bool_decide_eq_false_2 by lia.
    split; [done|]. split; [by rewrite app_nil_r|]. by split.
  - rewrite topUp_step, bool_decide_eq_true_2 by lia.
    destruct (AddInfraction_touches ip w)
      as (r & w1 & evs1 & Hrun1 & Htr1 & Hev1 & Hst1).
    unfold bind at 1. rewrite Hrun1. unfold bind at 1.
    assert (∃ w2 evs2, logIfErr r w1 = Done tt w2
                       ∧ trace w2 = trace w1 ++ evs2
                       ∧ Forall (reportEvent ip) evs2
                       ∧ store w2 = store w1)
      as (w2 & evs2 & -> & Htr2 & Hev2 & Hst2).
    { destruct r as [e|]; simpl.
      - eexists _, [_]. split; [reflexivity|]. split; [done|].
        split; [by repeat constructor|done].
      - exists w1, []. rewrite app_nil_r. by split_and!. }
    destruct (IH (i + 1) w2) as (w' & evs & Hrun & Htr & Hev & Hst); [lia|].
    exists w', (evs1 ++ evs2 ++ evs). split; [exact Hrun|].
    split; [by rewrite Htr, Htr2, Htr1, <- !app_assoc|].
    split; [by repeat (apply Forall_app; split)|].
    intros key Hne. by rewrite Hst, Hst2, Hst1.
Qed.

Lemma resyncEvent_report ip ips e :
  ip ∈ ips → reportEvent ip e → resyncEvent ips e.
Proof.
  intros Hin Hr. destruct e as [[]| | |]; simpl in *; try done; eauto.
Qed.

Lemma resyncEvent_mono ips ips' e :
  ips ⊆ ips' → resyncEvent ips e → resyncEvent ips' e.
Proof.
  intros Hsub. destruct e as [[]| | |]; simpl; try done.
  all: intros (ip0 & Hin & Hv); exists ip0; split; [by apply Hsub|done].
Qed.

(** X15.  The resynchronisation touches only what belongs to the members of the
    ip set, whichever commands fail: it returns, its commands are LLEN,
    RPUSH, LTRIM and EXPIRE on the key of a member, it calls [Ban] for
    members only and never [Unban], it issues no DEL, and every key that
    is the key of no member is left as it was. *)
Theorem resync_touches_members_only ips w :
  ∃ w' evs,
    resync ips w = Done tt w'
    ∧ trace w' = trace w ++ evs
    ∧ Forall (resyncEvent ips) evs
    ∧ (∀ key, (∀ ip, ip ∈ ips → ipToKey ip ≠ key) →
              store w' !! key = store w !! key).
Proof.
  revert w. induction ips as [|ip ips IH]; intros w.
  - exists w, []. rewrite app_nil_r. by split_and!.
  - cbn [resync]. unfold bind at 1. unfold bind at 1. unfold LLen, issue.
    destruct (fails (ncmd w)) eqn:Hf; cbn [fst snd].
    + unfold log, emit. cbn [store tick ncmd trace].
      match goal with |- context [resync ips ?w1] =>
        destruct (IH w1) as (w' & evs & Hrun & Htr & Hev & Hst)
      end.
      eexists w', (_ :: _ :: evs). split; [exact Hrun|].
      cbn [store tick ncmd trace] in *.
      split; [by rewrite Htr, <- !app_assoc|]. split.
      * apply Forall_cons. split; [exists ip; split; [by left|done]|].
        apply Forall_cons. split; [done|].
        eapply Forall_impl; [exact Hev|]. intros e.
        apply resyncEvent_mono. intros x Hx. by right.
      * intros key Hkey. rewrite Hst; [done|].
        intros ip' Hin. apply Hkey. by right.
    + match goal with |- context [topUp ip ?i ?w1] =>
        destruct (topUp_touches ip (Z.to_nat (MaxRetry - i)) i w1 eq_refl)
          as (w1' & evs1 & Hrun1 & Htr1 & Hev1 & Hst1)
      end.
      rewrite Hrun1.
      destruct (IH w1') as (w' & evs & Hrun & Htr & Hev & Hst).
      eexists w', (_ :: evs1 ++ evs). split; [exact Hrun|].
      cbn [store tick ncmd trace] in *.
      split; [by rewrite Htr, Htr1, <- !app_assoc|]. split.
      * apply Forall_cons. split; [exists ip; split; [by left|done]|].
        apply Forall_app. split.
        -- eapply Forall_impl; [exact Hev1|]. intros e.
           apply resyncEvent_report. by left.
        -- eapply Forall_impl; [exact Hev|]. intros e.
           apply resyncEvent_mono. intros x Hx. by right.
      * intros key Hkey. rewrite Hst, Hst1; [done| |].
        -- apply Hkey. by left.
        -- intros ip' Hin. apply Hkey. by right.
Qed.

(** X16.  The resynchronisation when the server is down.  When every command
    fails, each member costs one LLEN and one line of the log: the member
    is skipped, no report is attempted, and the server is as it was. *)
Theorem resync_server_down ips w :
  (∀ n, fails n = true) →
  ∃ w',
    resync ips w = Done tt w'
    ∧ trace w' = trace w ++ downEvents ips
    ∧ store w' = store w.
Proof.
  intros Hdown. revert w. induction ips as [|ip ips IH]; intros w.
  - exists w. unfold downEvents. simpl. by rewrite app_nil_r.
  - cbn [resync]. unfold bind at 1. unfold bind at 1. unfold LLen, issue.
    rewrite Hdown. cbn [fst snd]. unfold log, emit.
    cbn [store tick ncmd trace].
    match goal with |- context [resync ips ?w1] =>
      destruct (IH w1) as (w' & Hrun & Htr & Hst)
    end.
    exists w'. split; [exact Hrun|]. cbn [store tick ncmd trace] in *.
    split; [|exact Hst]. rewrite Htr. unfold downEvents. csimpl.
    by rewrite <- !app_assoc.
Qed.

End Resync.

(** ** [WriteState] *)

(** X17.  [WriteState] stops at the first write that fails.  It returns nil
    exactly when none of its four calls of [Write] fails, and the body has
    then received the four fragments of the page, in order.  Otherwise it
    returns the error of the first call that failed: the body has received
    the fragments before that one, no call of [Write] follows it, and the
    error is logged once. *)
Theorem WriteState_stops_at_first_failure (broken : nat → bool) w :
  let r := WriteState broken w in
  (err r = None ↔ ∀ k, (k < 4)%nat → broken (http.calls w + k)%nat = false)
  ∧ ∃ k : nat,
      http.body (out r) = http.body w ++ take k fragments
      ∧ (∀ j, (j < k)%nat → broken (http.calls w + j)%nat = false)
      ∧ (err r = None →
         k = 4%nat ∧ logged r = []
         ∧ http.calls (out r) = (http.calls w + 4)%nat)
      ∧ (∀ e, err r = Some e →
           (k < 4)%nat
           ∧ e = http.WriteFailed (http.calls w + k)
           ∧ broken (http.calls w + k)%nat = true
           ∧ logged r = [e]
           ∧ http.calls (out r) = (http.calls w + k + 1)%nat).
Proof.
  destruct w as [b c]. unfold WriteState, write. simpl.
  assert (∀ P : nat → Prop, P 0%nat → P 1%nat → P 2%nat → P 3%nat →
            ∀ k, (k < 4)%nat → P k) as Hfour.
  { intros P ? ? ? ? [|[|[|[|k]]]] Hk; try done; lia. }
  destruct (broken c) eqn:H0; simpl.
  { split; [split; [done|]; intros Hall; specialize (Hall 0%nat);
            rewrite Nat.add_0_r, H0 in Hall;
            by assert (true = false) by (apply Hall; lia)|].
    exists 0%nat. rewrite Nat.add_0_r, app_nil_r.
    split; [done|]. split; [intros j ?; lia|]. split; [done|].
    intros e [= <-]. split_and!; try done; [lia|f_equal; lia]. }
  destruct (broken (S c)) eqn:H1; simpl.
  { split; [split; [done|]; intros Hall; specialize (Hall 1%nat);
            rewrite Nat.add_1_r, H1 in Hall;
            by assert (true = false) by (apply Hall; lia)|].
    exists 1%nat. rewrite Nat.add_1_r.
    split; [done|]. split.
    { intros [|j] ?; [by rewrite Nat.add_0_r|lia]. }
    split; [done|]. intros e [= <-]. split_and!; try done; lia. }
  destruct (broken (S (S c))) eqn:H2; simpl.
  { split; [split; [done|]; intros Hall; specialize (Hall 2%nat);
            replace (c + 2)%nat with (S (S c)) in Hall by lia;
            rewrite H2 in Hall;
            by assert (true = false) by (apply Hall; lia)|].
    exists 2%nat. replace (c + 2)%nat with (S (S c)) by lia.
    split; [by rewrite <- app_assoc|]. split.
    { intros [|[|j]] ?; [by rewrite Nat.add_0_r|by rewrite Nat.add_1_r|lia]. }
    split; [done|]. intros e [= <-]. split_and!; try done; lia. }
  destruct (broken (S (S (S c)))) eqn:H3; simpl.
  { split; [split; [done|]; intros Hall; specialize (Hall 3%nat);
            replace (c + 3)%nat with (S (S (S c))) in Hall by lia;
            rewrite H3 in Hall;
            by assert (true = false) by (apply Hall; lia)|].
    exists 3%nat. replace (c + 3)%nat with (S (S (S c))) by lia.
    split; [by rewrite <- !app_assoc|]. split.
    { intros [|[|[|j]]] ?; [by rewrite Nat.add_0_r|by rewrite Nat.add_1_r
                           |by replace (c + 2)%nat with (S (S c)) by lia|lia]. }
    split; [done|]. intros e [= <-]. split_and!; try done; lia. }
  assert (∀ k, (k < 4)%nat → broken (c + k)%nat = false) as Hall.
  { apply Hfour.
    - by rewrite Nat.add_0_r.
    - by rewrite Nat.add_1_r.
    - by replace (c + 2)%nat with (S (S c)) by lia.
    - by replace (c + 3)%nat with (S (S (S c))) by lia. }
  split; [done|]. exists 4%nat.
  split; [by rewrite <- !app_assoc|]. split; [exact Hall|].
  split; [|done]. intros _. split_and!; try done. lia.
Qed.

(** ** Reading a log *)

Section Reading.

Context `{Net} `{Config} `{Environment}.

(** X18.  [listToInfractions] reads every entry once and in order: it returns
    without a panic, leaves the server, the clock and the count of the
    commands alone, and each entry of the list gives either a timestamp of
    the result or one line of the log, so that the result and the lines
    together are as many as the entries. *)
Theorem listToInfractions_reads_each_entry redisList w :
  ∃ infractions w' evs,
    listToInfractions redisList w = Done infractions w'
    ∧ trace w' = trace w ++ evs
    ∧ store w' = store w ∧ tick w' = tick w ∧ ncmd w' = ncmd w
    ∧ (length infractions + length evs = length redisList)%nat
    ∧ infractions
      = omap (fun s => time.Unix <$> strconv.ParseInt s) redisList
    ∧ Forall (fun e => ∃ s, e = EvLog (ErrorLog_parse_time s)
                            ∧ s ∈ redisList ∧ strconv.ParseInt s = None) evs.
Proof.
  exists (infractionsOf redisList), (mkWorld (store w) (tick w) (ncmd w)
            (trace w ++ parseErrors redisList)), (parseErrors redisList).
  split; [apply listToInfractions_spec|].
  split; [done|]. split; [done|]. split; [done|]. split; [done|].
  split; [apply parse_partition|]. split; [done|].
  unfold parseErrors. induction redisList as [|s rest IH]; csimpl; [done|].
  destruct (strconv.ParseInt s) eqn:Hs; csimpl.
  - eapply Forall_impl; [exact IH|].
    intros e (s' & -> & Hin & Hnone). exists s'. split; [done|].
    split; [by right|done].
  - apply Forall_cons. split.
    + exists s. split; [done|]. split; [by left|done].
    + eapply Forall_impl; [exact IH|].
      intros e (s' & -> & Hin & Hnone). exists s'. split; [done|].
      split; [by right|done].
Qed.

End Reading.

(** ** The further properties at concrete inputs *)

(** A fifth report at 500 s, after reports at 100 s, 200 s, 300 s and
    400 s. *)
Lemma AddInfraction_timestamp_read_back_witness :
  ∃ w',
    @AddInfraction ipv4.net scenarioConfig (steady (time.Unix 500))
      (10, 0, 0, 1)
      (initial {[ "aws-fail2ban-10.0.0.1"%string
                  := redis.mkEntry ["100"; "200"; "300"; "400"]%string None ]})
    = Done None w'
    ∧ infractionsOf
        (redis.lrange (store w') (@ipToKey ipv4.net (10, 0, 0, 1)))
      = [time.Unix 100; time.Unix 200; time.Unix 300; time.Unix 400;
         time.Unix 500].
Proof.
  run_concrete.
  match goal with |- context [store ?w1] =>
    destruct (@AddInfraction_timestamp_read_back ipv4.net scenarioConfig
                (steady (time.Unix 500)) (10, 0, 0, 1)
                (initial {[ "aws-fail2ban-10.0.0.1"%string
                            := redis.mkEntry
                                 ["100"; "200"; "300"; "400"]%string None ]})
                w1) as (Hread & _);
      [simpl; lia | simpl; lia | by vm_compute | reflexivity |]
  end.
  exact Hread.
Defined.

(** The same report: it reaches the threshold of 5, and [bannedUntil]
    gives the end of the ban at 500 s + 3600 s. *)
Lemma AddInfraction_sets_ban_end_witness :
  ∃ w',
    @AddInfraction ipv4.net scenarioConfig (steady (time.Unix 500))
      (10, 0, 0, 1)
      (initial {[ "aws-fail2ban-10.0.0.1"%string
                  := redis.mkEntry ["100"; "200"; "300"; "400"]%string None ]})
    = Done None w'
    ∧ @parseErrors ipv4.net
        (redis.lrange (store w') (@ipToKey ipv4.net (10, 0, 0, 1))) = [].
Proof.
  run_concrete.
  match goal with |- context [store ?w1] =>
    destruct (@AddInfraction_sets_ban_end ipv4.net scenarioConfig
                (steady (time.Unix 500)) (10, 0, 0, 1)
                (initial {[ "aws-fail2ban-10.0.0.1"%string
                            := redis.mkEntry
                                 ["100"; "200"; "300"; "400"]%string None ]})
                w1) as (Hwf & _);
      [simpl; lia | simpl; lia | by vm_compute | reflexivity | reflexivity |]
  end.
  exact Hwf.
Defined.

(** The same report: the log stays sorted. *)
Lemma AddInfraction_keeps_order_witness :
  ∃ w',
    @AddInfraction ipv4.net scenarioConfig (steady (time.Unix 500))
      (10, 0, 0, 1)
      (initial {[ "aws-fail2ban-10.0.0.1"%string
                  := redis.mkEntry ["100"; "200"; "300"; "400"]%string None ]})
    = Done None w'
    ∧ StronglySorted Z.le
        (infractionsOf
           (redis.lrange (store w') (@ipToKey ipv4.net (10, 0, 0, 1)))).
Proof.
  run_concrete.
  match goal with |- context [store ?w1] =>
    destruct (@AddInfraction_keeps_order ipv4.net scenarioConfig
                (steady (time.Unix 500)) (10, 0, 0, 1)
                (initial {[ "aws-fail2ban-10.0.0.1"%string
                            := redis.mkEntry
                                 ["100"; "200"; "300"; "400"]%string None ]})
                w1) as (Hsorted & _);
      [simpl; lia | simpl; lia | by vm_compute | | | reflexivity |]
  end.
  - change (infractionsOf (redis.lrange (store _) _))
      with [time.Unix 100; time.Unix 200; time.Unix 300; time.Unix 400].
    repeat constructor; by vm_compute.
  - change (infractionsOf (redis.lrange (store _) _))
      with [time.Unix 100; time.Unix 200; time.Unix 300; time.Unix 400].
    repeat constructor; by vm_compute.
  - exact Hsorted.
Defined.

(** A pass at 4200 s over a log of five infractions between 100 s and
    500 s: the ban lapsed at 4100 s. *)
Lemma manageState_only_maintains_witness :
  ∃ w' evs,
    @manageState ipv4.net scenarioConfig (steady (time.Unix 4200))
      [["aws-fail2ban-10.0.0.1"%string]]
      (initial {[ "aws-fail2ban-10.0.0.1"%string
                  := redis.mkEntry ["100"; "200"; "300"; "400"; "500"]%string
                                   None ]})
    = Done tt w'
    ∧ trace w'
      = trace (@initial ipv4.net
                 {[ "aws-fail2ban-10.0.0.1"%string
                    := redis.mkEntry ["100"; "200"; "300"; "400"; "500"]%string
                                     None ]}) ++ evs
    ∧ visited evs = ["aws-fail2ban-10.0.0.1"%string].
Proof.
  destruct (@manageState_only_maintains ipv4.net scenarioConfig
              (steady (time.Unix 4200))
              [["aws-fail2ban-10.0.0.1"%string]]
              (initial {[ "aws-fail2ban-10.0.0.1"%string
                          := redis.mkEntry
                               ["100"; "200"; "300"; "400"; "500"]%string
                               None ]}))
    as (w' & evs & k & Hrun & Htr & _ & _ & _ & Hall); [simpl; lia|].
  exists w', evs. split; [exact Hrun|]. split; [exact Htr|].
  exact (Hall (fun _ => eq_refl)).
Defined.

(** The same pass: its summary. *)
Lemma manageState_summary_exact_witness :
  ∃ w' evs,
    @manageState ipv4.net scenarioConfig (steady (time.Unix 4200))
      [["aws-fail2ban-10.0.0.1"%string]]
      (initial {[ "aws-fail2ban-10.0.0.1"%string
                  := redis.mkEntry ["100"; "200"; "300"; "400"; "500"]%string
                                   None ]})
    = Done tt w'
    ∧ trace w'
      = trace (@initial ipv4.net
                 {[ "aws-fail2ban-10.0.0.1"%string
                    := redis.mkEntry ["100"; "200"; "300"; "400"; "500"]%string
                                     None ]})
        ++ evs ++ summary (observed evs)
    ∧ scanCounts evs ≠ [].
Proof.
  apply (@manageState_summary_exact ipv4.net scenarioConfig
           (steady (time.Unix 4200))).
  simpl; lia.
Defined.

(** A pass over three pages. *)
Lemma manageState_scan_counts_witness :
  ∃ w' evs,
    @manageState ipv4.net scenarioConfig (steady (time.Unix 4200))
      [[]; []; []] (initial ∅) = Done tt w'
    ∧ trace w' = trace (@initial ipv4.net ∅) ++ evs
    ∧ scanCounts evs = [100; 200; 400].
Proof.
  destruct (@manageState_scan_counts ipv4.net scenarioConfig
              (steady (time.Unix 4200)) [[]; []; []] (initial ∅))
    as (w' & evs & n & Hrun & Htr & Hsc & _ & Hn); [simpl; lia|].
  exists w', evs. split; [exact Hrun|]. split; [exact Htr|].
  rewrite (Hn (fun _ => eq_refl)) in Hsc. exact Hsc.
Defined.

(** The pass at 4200 s again: the other key of the server is left alone. *)
Lemma manageState_only_shrinks_witness :
  ∃ w',
    @manageState ipv4.net scenarioConfig (steady (time.Unix 4200))
      [["aws-fail2ban-10.0.0.1"%string]]
      (initial {[ "aws-fail2ban-10.0.0.1"%string
                  := redis.mkEntry ["100"; "200"; "300"; "400"; "500"]%string
                                   None ]})
    = Done tt w'
    ∧ store w' !! "other"%string
      = store (@initial ipv4.net
                 {[ "aws-fail2ban-10.0.0.1"%string
                    := redis.mkEntry ["100"; "200"; "300"; "400"; "500"]%string
                                     None ]}) !! "other"%string.
Proof.
  destruct (@manageState_only_shrinks ipv4.net scenarioConfig
              (steady (time.Unix 4200))
              [["aws-fail2ban-10.0.0.1"%string]]
              (initial {[ "aws-fail2ban-10.0.0.1"%string
                          := redis.mkEntry
                               ["100"; "200"; "300"; "400"; "500"]%string
                               None ]}))
    as (w' & Hrun & Hinv); [simpl; lia|].
  exists w'. split; [exact Hrun|].
  destruct (Hinv "other"%string) as (_ & _ & Hsame). apply Hsame.
  intros page ->%list_elem_of_singleton Hin%list_elem_of_singleton.
  discriminate Hin.
Defined.

(** The visit of a key whose only entry is not a timestamp. *)
Lemma manageKey_unreadable_log_witness :
  ∃ w' evs,
    @manageKey ipv4.net scenarioConfig (steady (time.Unix 4200))
      "aws-fail2ban-10.0.0.1"%string noStats
      (initial {[ "aws-fail2ban-10.0.0.1"%string
                  := redis.mkEntry ["x"]%string None ]})
    = Done (bumpDeleted noStats) w'
    ∧ trace w'
      = trace (@initial ipv4.net
                 {[ "aws-fail2ban-10.0.0.1"%string
                    := redis.mkEntry ["x"]%string None ]}) ++ evs
    ∧ (∀ ip', @EvUnban ipv4.net ip' ∉ evs).
Proof.
  destruct (@manageKey_unreadable_log ipv4.net scenarioConfig
              (steady (time.Unix 4200))
              "aws-fail2ban-10.0.0.1"%string (10, 0, 0, 1) noStats
              (initial {[ "aws-fail2ban-10.0.0.1"%string
                          := redis.mkEntry ["x"]%string None ]}))
    as [_ Hdone]; [reflexivity..|].
  destruct Hdone as (w' & evs & Hrun & Htr & Hunban & _); [simpl; lia|].
  exists w', evs. split; [exact Hrun|]. split; [exact Htr|exact Hunban].
Defined.

(** The visit at 4200 s of a key with a server that is down. *)
Lemma manageKey_failures_witness :
  ∃ w',
    @manageKey ipv4.net scenarioConfig
      {| clock := fun _ => time.Unix 4200; fails := fun _ => true |}
      "aws-fail2ban-10.0.0.1"%string noStats
      (initial {[ "aws-fail2ban-10.0.0.1"%string
                  := redis.mkEntry ["100"; "200"; "300"; "400"; "500"]%string
                                   None ]})
    = Done noStats w'
    ∧ trace w'
      = trace (@initial ipv4.net
                 {[ "aws-fail2ban-10.0.0.1"%string
                    := redis.mkEntry ["100"; "200"; "300"; "400"; "500"]%string
                                     None ]})
        ++ [EvCmd (redis.LRange "aws-fail2ban-10.0.0.1") false;
            EvLog (ErrorLog_err
                     (StoreError (redis.LRange "aws-fail2ban-10.0.0.1")))].
Proof.
  apply (proj1 (@manageKey_failures ipv4.net scenarioConfig
                  {| clock := fun _ => time.Unix 4200;
                     fails := fun _ => true |}
                  "aws-fail2ban-10.0.0.1"%string (10, 0, 0, 1)));
    reflexivity.
Defined.

(** The resynchronisation of two members with a server that is down. *)
Lemma resync_server_down_witness :
  ∃ w',
    @resync ipv4.net scenarioConfig
      {| clock := fun _ => time.Unix 100; fails := fun _ => true |}
      [(10, 0, 0, 1); (10, 0, 0, 2)] (initial ∅) = Done tt w'
    ∧ trace w'
      = trace (@initial ipv4.net ∅)
        ++ @downEvents ipv4.net [(10, 0, 0, 1); (10, 0, 0, 2)]
    ∧ store w' = store (@initial ipv4.net ∅).
Proof.
  apply (@resync_server_down ipv4.net scenarioConfig
           {| clock := fun _ => time.Unix 100; fails := fun _ => true |}).
  intros n. reflexivity.
Defined.

(** ** A pass against a server that does not answer *)

Section Down.

Context `{Net} `{Config} `{Environment}.

(** X19.  A SCAN that fails ends the pass.  When the first SCAN of a pass
    fails, the error is logged, the empty reply carries the cursor 0 and
    the loop stops as if the scan were complete: whatever keys the server
    holds, none is visited, the server is as it was, and the summary
    reports no key in one iteration. *)
Theorem manageState_failed_scan pages w :
  fails (ncmd w) = true →
  ∃ w',
    manageState pages w = Done tt w'
    ∧ trace w'
      = trace w ++ [EvCmd (redis.Scan 0 100) false;
                    EvLog (ErrorLog_err (StoreError (redis.Scan 0 100)));
                    EvLog (InfoLog_evaluated 0 1)]
    ∧ store w' = store w.
Proof.
  intros Hf. unfold manageState.
  unfold bind at 1. unfold time_Now at 1. cbn [store tick ncmd trace].
  assert (∀ page next,
            scanPage page next 0 100 noStats
              (mkWorld (store w) (S (tick w)) (ncmd w) (trace w))
            = Done (bumpPage 0 noStats, 0)
                (mkWorld (store w) (S (tick w)) (S (ncmd w))
                   ((trace w ++ [EvCmd (redis.Scan 0 100) false])
                    ++ [EvLog (ErrorLog_err (StoreError (redis.Scan 0 100)))])))
    as Hpage.
  { intros page next. unfold scanPage, Scan, issue.
    unfold bind at 1. cbn [store tick ncmd trace]. by rewrite Hf. }
  unfold bind at 1.
  assert (scanLoop pages 0 100 noStats
            (mkWorld (store w) (S (tick w)) (ncmd w) (trace w))
          = Done (bumpPage 0 noStats)
              (mkWorld (store w) (S (tick w)) (S (ncmd w))
                 ((trace w ++ [EvCmd (redis.Scan 0 100) false])
                  ++ [EvLog (ErrorLog_err (StoreError (redis.Scan 0 100)))])))
    as ->.
  { destruct pages as [|page [|page' rest]]; cbn [scanLoop];
      unfold bind at 1; by rewrite Hpage. }
  eexists. split; [reflexivity|]. simpl.
  split; [by rewrite <- !app_assoc|done].
Qed.

End Down.

(** A pass over a page of one key with a server that is down. *)
Lemma manageState_failed_scan_witness :
  ∃ w',
    @manageState ipv4.net scenarioConfig
      {| clock := fun _ => time.Unix 4200; fails := fun _ => true |}
      [["aws-fail2ban-10.0.0.1"%string]]
      (initial {[ "aws-fail2ban-10.0.0.1"%string
                  := redis.mkEntry ["100"]%string None ]})
    = Done tt w'
    ∧ store w'
      = store (@initial ipv4.net
                 {[ "aws-fail2ban-10.0.0.1"%string
                    := redis.mkEntry ["100"]%string None ]}).
Proof.
  destruct (@manageState_failed_scan ipv4.net scenarioConfig
              {| clock := fun _ => time.Unix 4200; fails := fun _ => true |}
              [["aws-fail2ban-10.0.0.1"%string]]
              (initial {[ "aws-fail2ban-10.0.0.1"%string
                          := redis.mkEntry ["100"]%string None ]}))
    as (w' & Hrun & _ & Hst); [reflexivity|].
  exists w'. split; [exact Hrun|exact Hst].
Defined.
